(** * Verification of scripts/generate_scenarios.py

    A shallow embedding of the chaos-scenario generator: the parameter
    tables, the scenario builder [build_scenario], the two combination
    strategies [full_combinations] and [pairwise_combinations], the row
    computation of the preview listing and the write loop of [main].

    Python data is modelled as follows: [str] as [string], a tuple of
    strings as [list string], a [dict] with string keys as an association
    list in insertion order, a [set] as a duplicate-free list, an exception
    as the left injection of a sum. *)

From Stdlib Require Import String Ascii List ZArith Lia Bool Arith PrimFloat.
From Stdlib Require Import DecimalString.
Import ListNotations.
Open Scope string_scope.
Set Warnings "-inexact-float".

(** ** Python primitives *)

Module Py.

(** Exceptions the generator can raise.  [KeyError] is a subclass of
    [LookupError] and carries the key that was not found. *)
Inductive exn : Type :=
| KeyError (key : string)
| ValueError.

Definition is_LookupError (e : exn) : bool :=
  match e with
  | KeyError _ => true
  | ValueError => false
  end.

Definition result (A : Type) : Type := (exn + A)%type.

Definition ret {A : Type} (a : A) : result A := inr a.

Definition raise {A : Type} (e : exn) : result A := inl e.

Definition bind {A B : Type} (m : result A) (k : A -> result B) : result B :=
  match m with
  | inl e => inl e
  | inr a => k a
  end.

(** [[f(x) for x in l]] where [f] may raise: the first exception wins. *)
Fixpoint mapM {A B : Type} (f : A -> result B) (l : list A) : result (list B) :=
  match l with
  | [] => ret []
  | x :: xs =>
      bind (f x) (fun y => bind (mapM f xs) (fun ys => ret (y :: ys)))
  end.

(** Scalar values found in parameter sets and success criteria. *)
Inductive pyval : Type :=
| PyInt (z : Z)
| PyFloat (x : float)
| PyStr (s : string)
| PyBool (b : bool).

(** A dict with string keys, in insertion order. *)
Definition dict (V : Type) : Type := list (string * V).

Fixpoint dict_find {V : Type} (d : dict V) (k : string) : option V :=
  match d with
  | [] => None
  | (k', v) :: d' => if String.eqb k k' then Some v else dict_find d' k
  end.

(** [d[k]] *)
Definition getitem {V : Type} (d : dict V) (k : string) : result V :=
  match dict_find d k with
  | Some v => ret v
  | None => raise (KeyError k)
  end.

(** [d.keys()] *)
Definition keys {V : Type} (d : dict V) : list string := map fst d.

(** [k in d] *)
Definition contains {V : Type} (d : dict V) (k : string) : bool :=
  match dict_find d k with
  | Some _ => true
  | None => false
  end.

(** [{**d, k: v}]: an existing key keeps its position, a new one goes last. *)
Fixpoint dict_set {V : Type} (d : dict V) (k : string) (v : V) : dict V :=
  match d with
  | [] => [(k, v)]
  | (k', v') :: d' =>
      if String.eqb k k' then (k', v) :: d' else (k', v') :: dict_set d' k v
  end.

(** [{k: v for k, v in d.items()}] and [dict(d)]: a fresh dict with the
    same items in the same order. *)
Definition dict_copy {V : Type} (d : dict V) : dict V :=
  fold_left (fun acc kv => dict_set acc (fst kv) (snd kv)) d [].

Fixpoint replace_char (old new : ascii) (s : string) : string :=
  match s with
  | EmptyString => EmptyString
  | String c s' =>
      String (if Ascii.eqb c old then new else c) (replace_char old new s')
  end.

(** [itertools.product] over a list of pools: nested loops, the rightmost pool
    advancing on every step. *)
Fixpoint product {A : Type} (pools : list (list A)) : list (list A) :=
  match pools with
  | [] => [[]]
  | pool :: rest => flat_map (fun x => map (cons x) (product rest)) pool
  end.

End Py.

Import Py.

Declare Scope py_scope.
Delimit Scope py_scope with py.
Notation "x <- m ;; k" := (bind m (fun x => k))
  (at level 61, m at next level, right associativity) : py_scope.
Notation "d .[ k ]" := (getitem d k) (at level 1, left associativity,
  format "d .[ k ]") : py_scope.
Open Scope py_scope.

(** [s.replace('_', '-')] *)
Definition hyphenate (s : string) : string := replace_char "_" "-" s.

(** ** Data model *)

(** One entry of [FAULT_DEFINITIONS].  The three keys read by constant
    name are fields; the severity-keyed parameter sets, read as
    [fault_def[severity]], are the dict [levels]. *)
Record fault_def : Type := {
  fd_type : string;
  fd_category : string;
  fd_label : string;
  levels : dict (dict pyval)
}.

Record selector : Type := {
  pattern : string;
  alias : string
}.

Record tier : Type := {
  tier_label : string;
  selectors : list selector
}.

Record timing : Type := {
  duration : string;
  warmup : string;
  cooldown : string
}.

(** The module-level tables. *)
Record tables : Type := {
  FAULT_DEFINITIONS : dict fault_def;
  SEVERITY_SLUGS : dict (dict string);
  SEVERITY_LABELS : dict (dict string);
  TARGET_TIERS : dict tier;
  SEVERITIES : list string;
  TIMING : dict timing;
  INVARIANT_CRITERIA : list (dict pyval)
}.

(** The scenario document returned by [build_scenario]. *)
Record fault_entry : Type := {
  f_phase : string;
  f_description : string;
  f_target : string;
  f_type : string;
  f_params : dict pyval
}.

Record target_entry : Type := {
  sel_type : string;
  sel_enclave : string;
  sel_pattern : string;
  t_alias : string
}.

Record metadata : Type := {
  name : string;
  description : string;
  tags : list string;
  author : string;
  version : string
}.

Record spec : Type := {
  targets : list target_entry;
  s_duration : string;
  s_warmup : string;
  s_cooldown : string;
  faults : list fault_entry;
  success_criteria : list (dict pyval);
  metrics : list string
}.

Record scenario : Type := {
  apiVersion : string;
  kind : string;
  s_metadata : metadata;
  s_spec : spec
}.

(** ** The generator, over arbitrary tables *)

Section Generator.

Variable T : tables.

(** [scenario_description] *)
Definition scenario_description (fault_type target_tier severity : string)
  : result string :=
  labels <- (SEVERITY_LABELS T).[fault_type] ;;
  fault_label <- labels.[severity] ;;
  tier <- (TARGET_TIERS T).[target_tier] ;;
  let target_label := tier_label tier in
  fault_def <- (FAULT_DEFINITIONS T).[fault_type] ;;
  let fault_ctx := fd_label fault_def in
  ret (fault_label ++ " on " ++ target_label ++ ". " ++ fault_ctx ++ ".").

(** The scenario name as [build_scenario] assembles it. *)
Definition scenario_name (fault_type slug target_tier : string) : string :=
  "gen"
  ++ "-" ++ hyphenate fault_type
  ++ "-" ++ slug
  ++ "-" ++ hyphenate target_tier.

(** [build_scenario] *)
Definition build_scenario (fault_type target_tier severity : string)
  : result scenario :=
  fault_def <- (FAULT_DEFINITIONS T).[fault_type] ;;
  tier <- (TARGET_TIERS T).[target_tier] ;;
  timing <- (TIMING T).[severity] ;;
  let selectors := selectors tier in
  level <- (levels fault_def).[severity] ;;
  let base_params := dict_copy level in
  faults <- mapM (fun s =>
      labels <- (SEVERITY_LABELS T).[fault_type] ;;
      label <- labels.[severity] ;;
      ret {| f_phase := hyphenate fault_type ++ "-" ++ alias s;
             f_description := label ++ " applied to " ++ alias s;
             f_target := alias s;
             f_type := fd_type fault_def;
             f_params := dict_copy base_params |}) selectors ;;
  let criteria :=
    map (fun c => dict_set c "window" (PyStr (duration timing)))
        (INVARIANT_CRITERIA T) in
  slugs <- (SEVERITY_SLUGS T).[fault_type] ;;
  slug <- slugs.[severity] ;;
  let name := scenario_name fault_type slug target_tier in
  description <- scenario_description fault_type target_tier severity ;;
  ret {| apiVersion := "chaos.polygon.io/v1";
         kind := "ChaosScenario";
         s_metadata :=
           {| name := name;
              description := description;
              tags := ["generated"; hyphenate fault_type; slug; target_tier];
              author := "scripts/generate_scenarios.py";
              version := "0.0.1" |};
         s_spec :=
           {| targets :=
                map (fun s =>
                       {| sel_type := "kurtosis_service";
                          sel_enclave := "${ENCLAVE_NAME}";
                          sel_pattern := pattern s;
                          t_alias := alias s |}) selectors;
              s_duration := duration timing;
              s_warmup := warmup timing;
              s_cooldown := cooldown timing;
              faults := faults;
              success_criteria := criteria;
              metrics := ["chain_head_block";
                          "cometbft_consensus_height";
                          "cometbft_consensus_validators";
                          "up"] |} |}.

(** The three dimensions, in the order both strategies pass them to
    [itertools.product]. *)
Definition dimensions : list (list string) :=
  [keys (FAULT_DEFINITIONS T); keys (TARGET_TIERS T); SEVERITIES T].

(** [full_combinations] *)
Definition full_combinations : list (list string) :=
  product [keys (FAULT_DEFINITIONS T); keys (TARGET_TIERS T); SEVERITIES T].

End Generator.

(** ** The greedy pairwise reduction *)

(** A requirement [(i, vi, j, vj)]: dimension [i] takes [vi] while
    dimension [j] takes [vj]. *)
Definition req : Type := (nat * string * nat * string)%type.

Definition req_eqb (a b : req) : bool :=
  match a, b with
  | (i, vi, j, vj), (i', vi', j', vj') =>
      Nat.eqb i i' && String.eqb vi vi' && Nat.eqb j j' && String.eqb vj vj'
  end.

(** Sets of requirements, as duplicate-free lists. *)
Module ReqSet.

Definition t : Type := list req.

Definition empty : t := [].

(** [x in s] *)
Definition mem (x : req) (s : t) : bool := existsb (req_eqb x) s.

(** [s.add(x)] *)
Definition add (x : req) (s : t) : t := if mem x s then s else x :: s.

(** [set(l)] *)
Definition of_list (l : list req) : t := fold_left (fun s x => add x s) l empty.

Definition subset (a b : t) : bool := forallb (fun x => mem x b) a.

(** [a < b]: [a] is a subset of [b] and differs from it. *)
Definition proper_subset (a b : t) : bool := subset a b && negb (subset b a).

End ReqSet.

Module Pairwise.

Section Greedy.

Variable dimensions : list (list string).

(** [n = len(dimensions)] *)
Definition n : nat := length dimensions.

(** [for i in range(n) for j in range(i + 1, n)] *)
Definition index_pairs (n : nat) : list (nat * nat) :=
  flat_map (fun i => map (pair i) (seq (i + 1) (n - (i + 1)))) (seq 0 n).

(** [combo[i]]; every tuple of the product has [n] components, so the
    index is in range for [i < n] (lemma [product_length]). *)
Definition item (combo : list string) (i : nat) : string := nth i combo "".

(** The requirement a tuple meets on the dimension pair [(i, j)]. *)
Definition projection (combo : list string) (ij : nat * nat) : req :=
  (fst ij, item combo (fst ij), snd ij, item combo (snd ij)).

Definition all_combos : list (list string) := product dimensions.

Definition required : ReqSet.t :=
  ReqSet.of_list
    (flat_map (fun ij =>
       flat_map (fun vi =>
         map (fun vj => (fst ij, vi, snd ij, vj)) (nth (snd ij) dimensions []))
         (nth (fst ij) dimensions []))
       (index_pairs n)).

(** [sum(1 for i ... for j ... if (i, combo[i], j, combo[j]) not in covered)] *)
Definition new_count (covered : ReqSet.t) (combo : list string) : Z :=
  Z.of_nat
    (length
       (filter (fun ij => negb (ReqSet.mem (projection combo ij) covered))
               (index_pairs n))).

(** One step of the scan [for combo in all_combos]. *)
Definition scan_step (covered : ReqSet.t) (best : option (list string) * Z)
  (combo : list string) : option (list string) * Z :=
  let new := new_count covered combo in
  if (new >? snd best)%Z then (Some combo, new) else best.

(** The scan of one round, from [best_combo, best_new = None, -1]. *)
Definition scan (covered : ReqSet.t) (combos : list (list string))
  : option (list string) * Z :=
  fold_left (scan_step covered) combos (None, (-1)%Z).

(** [covered.add(...)] for every projection of the chosen tuple. *)
Definition mark (covered : ReqSet.t) (combo : list string) : ReqSet.t :=
  fold_left (fun s ij => ReqSet.add (projection combo ij) s)
            (index_pairs n) covered.

(** The [while covered < required] loop.  [fuel] bounds the number of
    rounds; [None] means the bound was reached before the loop ended. *)
Fixpoint greedy_loop (fuel : nat) (covered : ReqSet.t)
  (selected : list (list string)) : option (list (list string)) :=
  match fuel with
  | O => None
  | S fuel' =>
      if ReqSet.proper_subset covered required then
        match scan covered all_combos with
        | (None, _) => Some selected
        | (Some best_combo, best_new) =>
            if (best_new =? 0)%Z then Some selected
            else greedy_loop fuel' (mark covered best_combo)
                             (selected ++ [best_combo])
        end
      else Some selected
  end.

(** The built-in greedy implementation.  Every round but the last adds
    a requirement to [covered], so [length required + 1] rounds are
    enough (lemma [greedy_total]). *)
Definition greedy : option (list (list string)) :=
  greedy_loop (S (length required)) ReqSet.empty [].

(** The selection rule in the specification's words: [c], at position
    [k] of [combos], adds the largest number of uncovered requirements,
    and every tuple before position [k] adds strictly fewer. *)
Definition first_max (covered : ReqSet.t) (combos : list (list string))
  (k : nat) (c : list string) : Prop :=
  nth_error combos k = Some c
  /\ (forall c', In c' combos ->
        (new_count covered c' <= new_count covered c)%Z)
  /\ (forall k' c', k' < k -> nth_error combos k' = Some c' ->
        (new_count covered c' < new_count covered c)%Z).

(** What the scan holds after the tuples [pre]: nothing before the
    first tuple, the tuple the rule names for [pre] afterwards. *)
Definition scan_inv (covered : ReqSet.t) (pre : list (list string))
  (best : option (list string) * Z) : Prop :=
  (pre = [] /\ best = (None, (-1)%Z))
  \/ exists k c, best = (Some c, new_count covered c)
                 /\ first_max covered pre k c.

(** What the loop holds at the head of every round: the selected
    tuples come from the product, none is repeated, and [covered] is
    the set of their projections. *)
Definition loop_inv (covered : ReqSet.t) (selected : list (list string))
  : Prop :=
  (forall c, In c selected -> In c all_combos)
  /\ NoDup selected
  /\ (forall x, ReqSet.mem x covered = true <->
         exists c ij, In c selected /\ In ij (index_pairs n)
                      /\ x = projection c ij).

(** The three ways the loop ends. *)
Definition loop_exit (covered : ReqSet.t) : Prop :=
  ReqSet.proper_subset covered required = false
  \/ all_combos = []
  \/ (forall c, In c all_combos -> new_count covered c = 0%Z).

(** [covered] after the rounds that selected the tuples of
    [selected], in that order. *)
Definition marks (selected : list (list string)) : ReqSet.t :=
  fold_left mark selected ReqSet.empty.

(** The selection rule for a whole list, in the specification's words:
    every element was chosen in a round (the loop condition held for
    the requirements covered by the elements before it), it is the
    tuple [first_max] names against that coverage, and it adds at least
    one requirement; and after the last element no round can add
    anything: the loop condition fails, or there is no tuple, or no
    tuple adds a requirement. *)
Definition follows_rule (combos : list (list string))
  (selected : list (list string)) : Prop :=
  (forall r c,
     nth_error selected r = Some c ->
     ReqSet.proper_subset (marks (firstn r selected)) required = true
     /\ (0 < new_count (marks (firstn r selected)) c)%Z
     /\ exists k, first_max (marks (firstn r selected)) combos k c)
  /\ (ReqSet.proper_subset (marks selected) required = false
      \/ combos = []
      \/ forall c, In c combos -> new_count (marks selected) c = 0%Z).

(** Two stored sets with the same members. *)
Definition same_members (a b : ReqSet.t) : Prop :=
  forall x, ReqSet.mem x a = ReqSet.mem x b.

(** Requirements still missing from [covered]. *)
Definition uncovered (covered : ReqSet.t) : list req :=
  filter (fun x => negb (ReqSet.mem x covered)) required.

End Greedy.

End Pairwise.

(** [pairwise_combinations].  [allpairspy] is the imported [AllPairs]
    generator when the library is installed, [None] when the import
    raises [ImportError]. *)
Definition pairwise_combinations (T : tables)
  (allpairspy : option (list (list string) -> list (list string)))
  : option (list (list string)) :=
  match allpairspy with
  | Some AllPairs => Some (AllPairs (dimensions T))
  | None => Pairwise.greedy (dimensions T)
  end.

(** ** The preview listing and the write loop *)

Section Cli.

Variable T : tables.

(** [for ft, tt, sv in combos]: unpacking a tuple into three names;
    a tuple of another length raises [ValueError]. *)
Definition unpack3 (combo : list string) : result (string * string * string) :=
  match combo with
  | [ft; tgt; sv] => ret (ft, tgt, sv)
  | _ => raise ValueError
  end.

(** A row [(name, desc, category, dur)] of the preview table. *)
Record list_row : Type := {
  row_name : string;
  row_desc : string;
  row_category : string;
  row_dur : string
}.

(** The body of the first loop of [_print_list]. *)
Definition print_list_row (ft tt sv : string) : result list_row :=
  slugs <- (SEVERITY_SLUGS T).[ft] ;;
  slug <- slugs.[sv] ;;
  let name := "gen-" ++ hyphenate ft ++ "-" ++ slug ++ "-" ++ hyphenate tt in
  labels <- (SEVERITY_LABELS T).[ft] ;;
  label <- labels.[sv] ;;
  tier <- (TARGET_TIERS T).[tt] ;;
  let desc := label ++ " on " ++ tier_label tier in
  fault_def <- (FAULT_DEFINITIONS T).[ft] ;;
  let category := fd_category fault_def in
  timing <- (TIMING T).[sv] ;;
  let dur := duration timing in
  ret {| row_name := name; row_desc := desc;
         row_category := category; row_dur := dur |}.

(** The rows [_print_list] collects for [combos]. *)
Definition print_list_rows (combos : list (list string))
  : result (list list_row) :=
  mapM (fun combo =>
          c <- unpack3 combo ;;
          let '(ft, tgt, sv) := c in
          print_list_row ft tgt sv) combos.

(** A file written by [main]: the category subdirectory, the file name
    and the document that is serialised into it.  [write_loop] and
    [main] are the run on a file system that accepts every operation
    (lemma [run_loop_accepting]); [run_loop] and [main_run] are the run
    on any file system. *)
Record written_file : Type := {
  out_category : string;
  out_file : string;
  out_document : scenario
}.

(** The write loop of [main]: the files written so far, in order, and
    the exception that stopped the loop, if any. *)
Fixpoint write_loop (combos : list (list string)) (written : list written_file)
  : list written_file * option exn :=
  match combos with
  | [] => (written, None)
  | combo :: rest =>
      match
        (c <- unpack3 combo ;;
         let '(ft, tgt, sv) := c in
         scenario <- build_scenario T ft tgt sv ;;
         fault_def <- (FAULT_DEFINITIONS T).[ft] ;;
         let category := fd_category fault_def in
         let name := name (s_metadata scenario) in
         ret {| out_category := category;
                out_file := name ++ ".yaml";
                out_document := scenario |})
      with
      | inl e => (written, Some e)
      | inr f => write_loop rest (written ++ [f])
      end
  end.

(** [main] without [--list]: [None] when the combination strategy does
    not return. *)
Definition main (pairwise : bool)
  (allpairspy : option (list (list string) -> list (list string)))
  : option (list written_file * option exn) :=
  match (if pairwise then pairwise_combinations T allpairspy
         else Some (full_combinations T)) with
  | Some combos => Some (write_loop combos [])
  | None => None
  end.

(** The name under which [main] files the record of a combination. *)
Definition assembled_name (combo : list string) : result string :=
  c <- unpack3 combo ;;
  let '(ft, tgt, sv) := c in
  r <- build_scenario T ft tgt sv ;;
  ret (name (s_metadata r)).

End Cli.

(** ** The tables of the script *)

Module Shipped.

Definition net_params (key : string) (v : Z) : dict pyval :=
  [(key, PyInt v); ("target_proto", PyStr "tcp,udp"); ("device", PyStr "eth0")].

Definition reorder_params (v : Z) : dict pyval :=
  [("reorder", PyInt v); ("latency", PyInt 10);
   ("target_proto", PyStr "tcp,udp"); ("device", PyStr "eth0")].

Definition drop_params (p : float) : dict pyval :=
  [("probability", PyFloat p); ("target_proto", PyStr "tcp");
   ("rule_type", PyStr "drop")].

Definition three {V : Type} (mild moderate severe : V) : dict V :=
  [("mild", mild); ("moderate", moderate); ("severe", severe)].

Definition FAULT_DEFINITIONS : dict fault_def := [
  ("packet_loss",
   {| fd_type := "network"; fd_category := "network";
      fd_label := "Packet loss — simulates congested / lossy network links";
      levels := three (net_params "packet_loss" 10)
                      (net_params "packet_loss" 40)
                      (net_params "packet_loss" 80) |});
  ("latency",
   {| fd_type := "network"; fd_category := "network";
      fd_label := "Added network latency — simulates slow / geographically distant peers";
      levels := three (net_params "latency" 100)
                      (net_params "latency" 500)
                      (net_params "latency" 2000) |});
  ("bandwidth_throttle",
   {| fd_type := "network"; fd_category := "network";
      fd_label := "Bandwidth throttle — simulates underpowered or constrained uplinks";
      levels := three (net_params "bandwidth" 10000)
                      (net_params "bandwidth" 1000)
                      (net_params "bandwidth" 100) |});
  ("packet_reorder",
   {| fd_type := "network"; fd_category := "network";
      fd_label := "Packet reordering — simulates out-of-order delivery disrupting protocol sequencing";
      levels := three (reorder_params 25) (reorder_params 50)
                      (reorder_params 75) |});
  ("connection_drop",
   {| fd_type := "connection_drop"; fd_category := "network";
      fd_label := "Connection drop (iptables) — simulates intermittent TCP session resets";
      levels := three (drop_params 0.1) (drop_params 0.4) (drop_params 0.8) |});
  ("dns_latency",
   {| fd_type := "dns"; fd_category := "network";
      fd_label := "DNS latency / failure — simulates slow or flaky service discovery";
      levels := three
        [("delay_ms", PyInt 250); ("failure_rate", PyFloat 0.0)]
        [("delay_ms", PyInt 1000); ("failure_rate", PyFloat 0.1)]
        [("delay_ms", PyInt 5000); ("failure_rate", PyFloat 0.3)] |});
  ("container_restart",
   {| fd_type := "container_restart"; fd_category := "applications";
      fd_label := "Container restart — simulates process crash and recovery";
      levels := three [("grace_period", PyInt 30)]
                      [("grace_period", PyInt 5)]
                      [("grace_period", PyInt 0)] |});
  ("container_pause",
   {| fd_type := "container_pause"; fd_category := "applications";
      fd_label := "Container pause (SIGSTOP) — simulates frozen process / GC pause / OOM stall";
      levels := three
        [("duration", PyStr "30s"); ("unpause", PyBool true)]
        [("duration", PyStr "60s"); ("unpause", PyBool true)]
        [("duration", PyStr "120s"); ("unpause", PyBool true)] |});
  ("cpu_stress",
   {| fd_type := "cpu_stress"; fd_category := "cpu-memory";
      fd_label := "CPU stress — simulates CPU-bound workload competing with validator logic";
      levels := three [("cpu_percent", PyInt 50)]
                      [("cpu_percent", PyInt 75)]
                      [("cpu_percent", PyInt 95)] |});
  ("memory_pressure",
   {| fd_type := "memory_stress"; fd_category := "cpu-memory";
      fd_label := "Memory pressure — simulates memory-constrained environment / memory leak";
      levels := three [("memory_mb", PyInt 256)]
                      [("memory_mb", PyInt 512)]
                      [("memory_mb", PyInt 1024)] |});
  ("disk_io",
   {| fd_type := "disk_io"; fd_category := "filesystem";
      fd_label := "Disk I/O delay — simulates slow storage (HDD / NFS / overloaded SSD)";
      levels := three
        [("io_latency_ms", PyInt 100); ("operation", PyStr "all")]
        [("io_latency_ms", PyInt 500); ("operation", PyStr "all")]
        [("io_latency_ms", PyInt 2000); ("operation", PyStr "all")] |})
].

Definition SEVERITY_SLUGS : dict (dict string) := [
  ("packet_loss",        three "10pct" "40pct" "80pct");
  ("latency",            three "100ms" "500ms" "2s");
  ("bandwidth_throttle", three "10mbps" "1mbps" "100kbps");
  ("packet_reorder",     three "25pct" "50pct" "75pct");
  ("connection_drop",    three "10pct" "40pct" "80pct");
  ("dns_latency",        three "250ms" "1s" "5s");
  ("container_restart",  three "graceful" "quick" "immediate");
  ("container_pause",    three "30s" "60s" "120s");
  ("cpu_stress",         three "50pct" "75pct" "95pct");
  ("memory_pressure",    three "256mb" "512mb" "1gb");
  ("disk_io",            three "100ms" "500ms" "2s")
].

Definition SEVERITY_LABELS : dict (dict string) := [
  ("packet_loss",
   three "10% packet loss" "40% packet loss" "80% packet loss");
  ("latency",
   three "100 ms added latency" "500 ms added latency" "2 s added latency");
  ("bandwidth_throttle",
   three "10 Mbps cap" "1 Mbps cap" "100 kbps cap");
  ("packet_reorder",
   three "25% reorder" "50% reorder" "75% reorder");
  ("connection_drop",
   three "10% TCP drop prob." "40% TCP drop prob." "80% TCP drop prob.");
  ("dns_latency",
   three "250 ms DNS delay" "1 s DNS delay" "5 s DNS delay / 30% fail");
  ("container_restart",
   three "graceful (30 s grace)" "fast (5 s grace)" "immediate (0 s grace)");
  ("container_pause",
   three "30 s pause" "60 s pause" "120 s pause");
  ("cpu_stress",
   three "50% CPU load" "75% CPU load" "95% CPU load");
  ("memory_pressure",
   three "256 MB pressure" "512 MB pressure" "1 GB pressure");
  ("disk_io",
   three "100 ms I/O delay" "500 ms I/O delay" "2 s I/O delay")
].

Definition sel (p a : string) : selector := {| pattern := p; alias := a |}.

Definition TARGET_TIERS : dict tier := [
  ("validator1_heimdall",
   {| tier_label := "validator 1 — Heimdall consensus layer only";
      selectors := [sel "l2-cl-1-heimdall-v2-bor-validator" "target_heimdall"] |});
  ("validator1_bor",
   {| tier_label := "validator 1 — Bor execution layer only";
      selectors := [sel "l2-el-1-bor-heimdall-v2-validator" "target_bor"] |});
  ("validator1_both",
   {| tier_label := "validator 1 — Heimdall + Bor (both layers of one validator)";
      selectors := [sel "l2-cl-1-heimdall-v2-bor-validator" "target_heimdall";
                    sel "l2-el-1-bor-heimdall-v2-validator" "target_bor"] |});
  ("all_heimdall",
   {| tier_label := "all validators — Heimdall consensus layer (wildcard)";
      selectors := [sel "l2-cl-.*-heimdall-v2-bor-validator" "target_heimdall"] |});
  ("all_bor",
   {| tier_label := "all validators — Bor execution layer (wildcard)";
      selectors := [sel "l2-el-.*-bor-heimdall-v2-validator" "target_bor"] |});
  ("all_both",
   {| tier_label := "all validators — Heimdall + Bor both layers (wildcard)";
      selectors := [sel "l2-cl-.*-heimdall-v2-bor-validator" "target_heimdall";
                    sel "l2-el-.*-bor-heimdall-v2-validator" "target_bor"] |});
  ("rabbitmq",
   {| tier_label := "RabbitMQ message broker (Heimdall event bus)";
      selectors := [sel "l2-cl-.*-rabbitmq" "target_rabbitmq"] |});
  ("rpc_nodes",
   {| tier_label := "Bor RPC-only nodes (non-validator full nodes)";
      selectors := [sel "l2-el-.*-bor-heimdall-v2-rpc" "target_rpc"] |})
].

Definition SEVERITIES : list string := ["mild"; "moderate"; "severe"].

Definition TIMING : dict timing :=
  three {| duration := "3m"; warmup := "30s"; cooldown := "30s" |}
        {| duration := "5m"; warmup := "60s"; cooldown := "60s" |}
        {| duration := "8m"; warmup := "2m"; cooldown := "2m" |}.

(** [s] between two double-quote characters (code point 34). *)
Definition quoted (s : string) : string :=
  String (ascii_of_nat 34) (s ++ String (ascii_of_nat 34) EmptyString).

Definition criterion (name description query threshold : string) : dict pyval :=
  [("name", PyStr name); ("description", PyStr description);
   ("type", PyStr "prometheus"); ("query", PyStr query);
   ("threshold", PyStr threshold); ("critical", PyBool true)].

Definition INVARIANT_CRITERIA : list (dict pyval) := [
  criterion "block_production_continues"
    "Network continues producing Bor blocks during the fault"
    ("increase(chain_head_block{job=~"
     ++ quoted "l2-el-.*-bor-heimdall-v2-validator" ++ "}[1m])")
    "> 0";
  criterion "consensus_height_advances"
    "Heimdall consensus height continues to increase"
    ("increase(cometbft_consensus_height{job=~"
     ++ quoted "l2-cl-.*-heimdall-v2-bor-validator" ++ "}[1m])")
    "> 0";
  criterion "bft_quorum_maintained"
    "At least 2/3 of validators remain online (topology-safe BFT quorum ratio)"
    ("count(up{job=~"
     ++ quoted "l2-cl-.*-heimdall-v2-bor-validator" ++ "} == 1)"
     ++ " / scalar(count(up{job=~"
     ++ quoted "l2-cl-.*-heimdall-v2-bor-validator" ++ "}))")
    ">= 0.67"
].

End Shipped.

(** The tables as the script defines them. *)
Definition shipped : tables := {|
  FAULT_DEFINITIONS := Shipped.FAULT_DEFINITIONS;
  SEVERITY_SLUGS := Shipped.SEVERITY_SLUGS;
  SEVERITY_LABELS := Shipped.SEVERITY_LABELS;
  TARGET_TIERS := Shipped.TARGET_TIERS;
  SEVERITIES := Shipped.SEVERITIES;
  TIMING := Shipped.TIMING;
  INVARIANT_CRITERIA := Shipped.INVARIANT_CRITERIA
|}.

(** ** Edited tables

    The tables are literals of the script; these are three edits of
    them, each breaking one of the consistency conditions a table
    author is expected to keep. *)

Definition with_tiers (T : tables) (tiers : dict tier) : tables :=
  {| FAULT_DEFINITIONS := FAULT_DEFINITIONS T;
     SEVERITY_SLUGS := SEVERITY_SLUGS T;
     SEVERITY_LABELS := SEVERITY_LABELS T;
     TARGET_TIERS := tiers;
     SEVERITIES := SEVERITIES T;
     TIMING := TIMING T;
     INVARIANT_CRITERIA := INVARIANT_CRITERIA T |}.

Definition with_faults (T : tables) (fds : dict fault_def) : tables :=
  {| FAULT_DEFINITIONS := fds;
     SEVERITY_SLUGS := SEVERITY_SLUGS T;
     SEVERITY_LABELS := SEVERITY_LABELS T;
     TARGET_TIERS := TARGET_TIERS T;
     SEVERITIES := SEVERITIES T;
     TIMING := TIMING T;
     INVARIANT_CRITERIA := INVARIANT_CRITERIA T |}.

Definition with_severities (T : tables) (svs : list string) : tables :=
  {| FAULT_DEFINITIONS := FAULT_DEFINITIONS T;
     SEVERITY_SLUGS := SEVERITY_SLUGS T;
     SEVERITY_LABELS := SEVERITY_LABELS T;
     TARGET_TIERS := TARGET_TIERS T;
     SEVERITIES := svs;
     TIMING := TIMING T;
     INVARIANT_CRITERIA := INVARIANT_CRITERIA T |}.

(** The [rabbitmq] tier with an empty selector list. *)
Definition tier_without_selectors : tables :=
  with_tiers shipped
    (dict_set Shipped.TARGET_TIERS "rabbitmq"
       {| tier_label := "RabbitMQ message broker (Heimdall event bus)";
          selectors := [] |}).

(** The [latency] fault without its [severe] parameter set. *)
Definition fault_without_severe : tables :=
  with_faults shipped
    (dict_set Shipped.FAULT_DEFINITIONS "latency"
       {| fd_type := "network"; fd_category := "network";
          fd_label := "Added network latency — simulates slow / geographically distant peers";
          levels := [("mild", Shipped.net_params "latency" 100);
                     ("moderate", Shipped.net_params "latency" 500)] |}).

(** An empty severity dimension. *)
Definition no_severities : tables := with_severities shipped [].

(** Repetition check on a list of strings. *)
Fixpoint distinct (l : list string) : bool :=
  match l with
  | [] => true
  | x :: xs => negb (existsb (String.eqb x) xs) && distinct xs
  end.

(** Case analysis on membership in a list given by its elements. *)
Ltac in_cases H :=
  simpl in H;
  repeat match type of H with
         | _ \/ _ => destruct H as [H|H]
         end;
  [subst ..|contradiction].

(** ** Text formatting of the preview table *)

(** A byte of the form 10xxxxxx continues a UTF-8 sequence. *)
Definition is_continuation (c : ascii) : bool :=
  let b := nat_of_ascii c in (128 <=? b)%nat && (b <? 192)%nat.

(** [len(s)] of a [str] held as its UTF-8 bytes: the number of code
    points, one per byte that starts a sequence. *)
Fixpoint py_len (s : string) : nat :=
  match s with
  | EmptyString => 0
  | String c s' => (if is_continuation c then 0 else 1) + py_len s'
  end.

(** [s * k] *)
Fixpoint str_repeat (s : string) (k : nat) : string :=
  match k with
  | O => EmptyString
  | S k' => s ++ str_repeat s k'
  end.

(** The format [{s:<w}]: left-aligned, padded with spaces to [w] code
    points, never truncated. *)
Definition ljust (s : string) (w : nat) : string :=
  s ++ str_repeat " " (w - py_len s).

(** [str(k)] of a non-negative integer. *)
Definition str_of_nat (k : nat) : string :=
  NilEmpty.string_of_uint (Nat.to_uint k).

(** [max(...)] over a sequence of integers; an empty sequence raises
    [ValueError]. *)
Definition py_max (l : list nat) : result nat :=
  match l with
  | [] => raise ValueError
  | x :: xs => ret (fold_left Nat.max xs x)
  end.

(** [enumerate(l, start)] *)
Fixpoint enumerate {A : Type} (l : list A) (start : nat) : list (nat * A) :=
  match l with
  | [] => []
  | x :: xs => (start, x) :: enumerate xs (S start)
  end.

Section Listing.

Variable T : tables.

(** The line [_print_list] prints for the row numbered [idx]. *)
Definition row_line (w_name w_desc w_cat : nat) (idx : nat) (row : list_row)
  : string :=
  ljust (str_of_nat idx) 5 ++ "  "
  ++ ljust (row_name row) w_name ++ "  "
  ++ ljust (row_desc row) w_desc ++ "  "
  ++ ljust (row_category row) w_cat ++ "  " ++ row_dur row.

(** [_print_list]: the lines it prints, in order. *)
Definition _print_list (combos : list (list string)) : result (list string) :=
  rows <- print_list_rows T combos ;;
  w_name <- py_max (map (fun r => py_len (row_name r)) rows) ;;
  w_desc <- py_max (map (fun r => py_len (row_desc r)) rows) ;;
  w_cat <- py_max (map (fun r => py_len (row_category r)) rows) ;;
  let header :=
    ljust "#" 5 ++ "  "
    ++ ljust "scenario name" w_name ++ "  "
    ++ ljust "what it tests" w_desc ++ "  "
    ++ ljust "category" w_cat ++ "  dur" in
  ret (header
       :: str_repeat "─" (py_len header)
       :: map (fun ir => row_line w_name w_desc w_cat (fst ir) (snd ir))
              (enumerate rows 1)).

(** [main] with [--list]: the lines printed, and the exception that
    ended the run, if any; [None] when the combination strategy does
    not return. *)
Definition main_list (pairwise : bool)
  (allpairspy : option (list (list string) -> list (list string)))
  : option (list string * option exn) :=
  match (if pairwise then pairwise_combinations T allpairspy
         else Some (full_combinations T)) with
  | Some combos =>
      let strategy := if pairwise then "pairwise" else "full combinatorial" in
      let printed :=
        ["Strategy   : " ++ strategy;
         "Combinations: " ++ str_of_nat (length combos);
         ""] in
      Some (match _print_list combos with
            | inl e => (printed, Some e)
            | inr lines => ((printed ++ lines)%list, None)
            end)
  | None => None
  end.

(** The body of the write loop of [main] for one combination. *)
Definition write_one (combo : list string) : result written_file :=
  c <- unpack3 combo ;;
  let '(ft, tgt, sv) := c in
  scenario <- build_scenario T ft tgt sv ;;
  fault_def <- (FAULT_DEFINITIONS T).[ft] ;;
  let category := fd_category fault_def in
  let name := name (s_metadata scenario) in
  ret {| out_category := category;
         out_file := name ++ ".yaml";
         out_document := scenario |}.

End Listing.

Section Assembly.

Variable T : tables.

(** The table entries [build_scenario] reads for a combination: the
    fault definition, the tier, the timing profile, the parameter set
    of the severity, the slug and the label. *)
Definition assembly_inputs (ft tgt sv : string) (fd : fault_def) (tr : tier)
  (tm : timing) (lv : dict pyval) (slug label : string) : Prop :=
  dict_find (FAULT_DEFINITIONS T) ft = Some fd
  /\ dict_find (TARGET_TIERS T) tgt = Some tr
  /\ dict_find (TIMING T) sv = Some tm
  /\ dict_find (levels fd) sv = Some lv
  /\ (slugs <- (SEVERITY_SLUGS T).[ft] ;; slugs.[sv]) = inr slug
  /\ (labels <- (SEVERITY_LABELS T).[ft] ;; labels.[sv]) = inr label.

(** The record [build_scenario] returns from those entries. *)
Definition assembled (ft tgt : string) (fd : fault_def) (tr : tier)
  (tm : timing) (lv : dict pyval) (slug label : string) : scenario :=
  {| apiVersion := "chaos.polygon.io/v1";
     kind := "ChaosScenario";
     s_metadata :=
       {| name := scenario_name ft slug tgt;
          description :=
            label ++ " on " ++ tier_label tr ++ ". " ++ fd_label fd ++ ".";
          tags := ["generated"; hyphenate ft; slug; tgt];
          author := "scripts/generate_scenarios.py";
          version := "0.0.1" |};
     s_spec :=
       {| targets :=
            map (fun s =>
                   {| sel_type := "kurtosis_service";
                      sel_enclave := "${ENCLAVE_NAME}";
                      sel_pattern := pattern s;
                      t_alias := alias s |}) (selectors tr);
          s_duration := duration tm;
          s_warmup := warmup tm;
          s_cooldown := cooldown tm;
          faults :=
            map (fun s =>
                   {| f_phase := hyphenate ft ++ "-" ++ alias s;
                      f_description := label ++ " applied to " ++ alias s;
                      f_target := alias s;
                      f_type := fd_type fd;
                      f_params := dict_copy (dict_copy lv) |}) (selectors tr);
          success_criteria :=
            map (fun c => dict_set c "window" (PyStr (duration tm)))
                (INVARIANT_CRITERIA T);
          metrics := ["chain_head_block";
                      "cometbft_consensus_height";
                      "cometbft_consensus_validators";
                      "up"] |} |}.

End Assembly.

(** ** The generating run and its environment *)

(** [s.replace(old, new)] for a non-empty [old]: the occurrences of
    [old] are replaced from left to right, without overlap.  [skip]
    counts the characters of a replaced occurrence still to pass. *)
Fixpoint replace_from (old new : string) (skip : nat) (s : string) : string :=
  match s with
  | EmptyString => EmptyString
  | String c s' =>
      match skip with
      | S k => replace_from old new k s'
      | O =>
          if String.prefix old s
          then new ++ replace_from old new (String.length old - 1) s'
          else String c (replace_from old new 0 s')
      end
  end.

Definition str_replace (old new s : string) : string :=
  replace_from old new 0 s.

Section Run.

Variable T : tables.

(** What the run asks of its environment: the YAML text of a record
    ([yaml.dump] with the script's dumper), [os.path.join], and a file
    system.  The state of the file system is a [world]; an operation
    gives the next state and, when the system call fails, the
    [OSError] it raises. *)
Variable to_yaml : scenario -> string.
Variable path_join : string -> string -> string.
Variable world : Type.
Variable os_error : Type.
Variable makedirs : world -> string -> world * option os_error.
Variable open_write : world -> string -> string -> world * option os_error.

(** [--output] and [--enclave]. *)
Variable output : string.
Variable enclave : option string.

(** What ends a run early: an exception of the script's own code, or
    an [OSError] of the file system. *)
Inductive failure : Type :=
| Raised (e : exn)
| OSError (err : os_error).

(** [if args.enclave: content = content.replace(...)]; an empty string
    is false. *)
Definition substitute_enclave (content : string) : string :=
  match enclave with
  | None => content
  | Some EmptyString => content
  | Some e => str_replace "${ENCLAVE_NAME}" e content
  end.

(** The body of the write loop for one combination: the state of the
    file system it leaves, and the line it prints or the failure that
    ends it. *)
Definition write_step (w : world) (combo : list string)
  : world * (failure + string) :=
  match unpack3 combo with
  | inl e => (w, inl (Raised e))
  | inr (ft, tgt, sv) =>
      match build_scenario T ft tgt sv with
      | inl e => (w, inl (Raised e))
      | inr scenario =>
          let content := substitute_enclave (to_yaml scenario) in
          match (FAULT_DEFINITIONS T).[ft] with
          | inl e => (w, inl (Raised e))
          | inr fault_def =>
              let category := fd_category fault_def in
              let out_dir := path_join output category in
              match makedirs w out_dir with
              | (w1, Some err) => (w1, inl (OSError err))
              | (w1, None) =>
                  let name := name (s_metadata scenario) in
                  let out_path := path_join out_dir (name ++ ".yaml") in
                  match open_write w1 out_path content with
                  | (w2, Some err) => (w2, inl (OSError err))
                  | (w2, None) => (w2, inr ("  wrote  " ++ out_path))
                  end
              end
          end
      end
  end.

(** The write loop: the final state of the file system, the lines
    printed, the counter [written], and the failure that ended the
    loop, if any. *)
Fixpoint run_loop (combos : list (list string)) (w : world)
  (printed : list string) (written : nat)
  : world * list string * nat * option failure :=
  match combos with
  | [] => (w, printed, written, None)
  | combo :: rest =>
      match write_step w combo with
      | (w', inl f) => (w', printed, written, Some f)
      | (w', inr line) => run_loop rest w' (printed ++ [line]) (S written)
      end
  end.

(** Successive steps that all complete: the state they lead to and the
    lines they print. *)
Inductive steps_done : list (list string) -> world -> world -> list string
                       -> Prop :=
| steps_nil (w : world) : steps_done [] w w []
| steps_cons (combo : list string) (rest : list (list string))
    (w w1 w2 : world) (line : string) (lines : list string) :
    write_step w combo = (w1, inr line) ->
    steps_done rest w1 w2 lines ->
    steps_done (combo :: rest) w w2 (line :: lines).

(** [main] without [--list], from the file system [w]: the final state
    of the file system, everything printed, and the failure that ended
    the run, if any; [None] when the combination strategy does not
    return. *)
Definition main_run (pairwise : bool)
  (allpairspy : option (list (list string) -> list (list string)))
  (w : world) : option (world * list string * option failure) :=
  match (if pairwise then pairwise_combinations T allpairspy
         else Some (full_combinations T)) with
  | Some combos =>
      let strategy := if pairwise then "pairwise" else "full combinatorial" in
      let printed :=
        ["Strategy   : " ++ strategy;
         "Combinations: " ++ str_of_nat (length combos);
         ""] in
      Some (match run_loop combos w printed 0 with
            | (w', printed', written, Some f) => (w', printed', Some f)
            | (w', printed', written, None) =>
                (w',
                 (printed'
                  ++ [""%string;
                      ("Generated " ++ str_of_nat written
                       ++ " scenario(s) in " ++ output ++ "/")%string;
                      ""%string;
                      ("Run one:  ./bin/chaos-runner run "
                       ++ "--scenario " ++ output
                       ++ "/<category>/<name>.yaml --enclave <enclave>")%string
                     ])%list,
                 None)
            end)
  | None => None
  end.

End Run.

Arguments Raised {os_error} e.
Arguments OSError {os_error} err.

(** The keys every entry of [FAULT_DEFINITIONS] holds beside its
    severity-keyed parameter sets.  In the script they live in the same
    dict, so a severity with one of these names would read a string
    where [build_scenario] expects a parameter set; the record
    [fault_def] keeps them apart, and statements over arbitrary tables
    exclude such severities. *)
Definition reserved_key (k : string) : bool :=
  String.eqb k "type" || String.eqb k "category" || String.eqb k "label".

(** No underscore occurs in [s]. *)
Fixpoint no_underscore (s : string) : bool :=
  match s with
  | EmptyString => true
  | String c s' => negb (Ascii.eqb c "_") && no_underscore s'
  end.

(** * Theorems *)

(** ** Facts about [product] *)

Section ProductFacts.

Context {A : Type}.

Lemma flat_map_block_length (B : Type) (f : A -> list B) (m : nat) (l : list A) :
  (forall x, length (f x) = m) -> length (flat_map f l) = length l * m.
Proof.
  intros Hf. induction l as [|x l IH]; simpl.
  - reflexivity.
  - rewrite length_app, Hf, IH. reflexivity.
Qed.

Lemma flat_map_block_nth (B : Type) (f : A -> list B) (m : nat) (l : list A) :
  (forall x, length (f x) = m) ->
  forall i r, r < m ->
    nth_error (flat_map f l) (i * m + r) =
    match nth_error l i with
    | Some x => nth_error (f x) r
    | None => None
    end.
Proof.
  intros Hf. induction l as [|x l IH]; intros i r Hr; simpl.
  - destruct i; simpl; apply nth_error_nil.
  - destruct i as [|i]; simpl.
    + apply nth_error_app1. rewrite Hf. exact Hr.
    + rewrite nth_error_app2 by (rewrite Hf; lia).
      rewrite Hf. replace (m + i * m + r - m) with (i * m + r) by lia.
      apply IH. exact Hr.
Qed.

(** Every tuple of the product has one component per pool. *)
Lemma product_length (pools : list (list A)) (c : list A) :
  In c (product pools) -> length c = length pools.
Proof.
  revert c. induction pools as [|p ps IH]; intros c Hc; simpl in *.
  - destruct Hc as [<-|[]]. reflexivity.
  - apply in_flat_map in Hc. destruct Hc as (x & _ & Hc).
    apply in_map_iff in Hc. destruct Hc as (t & <- & Ht).
    simpl. f_equal. apply IH. exact Ht.
Qed.

Lemma in_product_cons (p : list A) (ps : list (list A)) (c : list A) :
  In c (product (p :: ps)) <->
  exists x t, c = x :: t /\ In x p /\ In t (product ps).
Proof.
  simpl. rewrite in_flat_map. split.
  - intros (x & Hx & Hc). apply in_map_iff in Hc.
    destruct Hc as (t & <- & Ht). exists x, t. auto.
  - intros (x & t & -> & Hx & Ht). exists x. split; [exact Hx|].
    apply in_map. exact Ht.
Qed.

(** The number of tuples is the product of the pool sizes. *)
Lemma product_count (pools : list (list A)) :
  length (product pools) =
  fold_right (fun p acc => length p * acc) 1 pools.
Proof.
  induction pools as [|p ps IH]; simpl.
  - reflexivity.
  - rewrite (flat_map_block_length _ _ (length (product ps))).
    + rewrite IH. reflexivity.
    + intros x. apply length_map.
Qed.

Lemma NoDup_flat_map (B : Type) (f : A -> list B) (l : list A) :
  NoDup l ->
  (forall x, In x l -> NoDup (f x)) ->
  (forall x y b, In x l -> In y l -> In b (f x) -> In b (f y) -> x = y) ->
  NoDup (flat_map f l).
Proof.
  induction l as [|x l IH]; intros Hl Hf Hdisj; simpl.
  - constructor.
  - inversion Hl as [|? ? Hx Hl']; subst.
    apply NoDup_app.
    + apply Hf. left. reflexivity.
    + apply IH; [exact Hl' | intros; apply Hf; right; assumption |].
      intros u v b Hu Hv. apply Hdisj; right; assumption.
    + intros b Hb Hb'. apply in_flat_map in Hb'. destruct Hb' as (y & Hy & Hby).
      apply Hx. rewrite (Hdisj x y b); auto; simpl; auto.
Qed.

Lemma NoDup_map_cons (x : A) (l : list (list A)) :
  NoDup l -> NoDup (map (cons x) l).
Proof.
  induction 1 as [|t l Ht _ IH]; simpl; constructor.
  - intros Hin. apply in_map_iff in Hin. destruct Hin as (t' & E & Ht').
    inversion E. subst. contradiction.
  - exact IH.
Qed.

(** Pools without repeated values give a product without repeated tuples. *)
Lemma NoDup_product (pools : list (list A)) :
  Forall (@NoDup A) pools -> NoDup (product pools).
Proof.
  induction pools as [|p ps IH]; intros H; simpl.
  - constructor; [intros []|constructor].
  - inversion H as [|? ? Hp Hps]; subst.
    apply NoDup_flat_map.
    + exact Hp.
    + intros x _. apply NoDup_map_cons. apply IH. exact Hps.
    + intros x y b _ _ Hbx Hby.
      apply in_map_iff in Hbx. destruct Hbx as (t & <- & _).
      apply in_map_iff in Hby. destruct Hby as (t' & E & _).
      inversion E. reflexivity.
Qed.

(** The position of a tuple: the first pool selects a block, the rest
    of the pools the position inside the block. *)
Lemma product_nth_cons (p : list A) (ps : list (list A)) (i r : nat)
  (x : A) (t : list A) :
  nth_error p i = Some x ->
  nth_error (product ps) r = Some t ->
  nth_error (product (p :: ps)) (i * length (product ps) + r) = Some (x :: t).
Proof.
  intros Hx Ht. simpl.
  rewrite (flat_map_block_nth _ _ (length (product ps))).
  - rewrite Hx, nth_error_map, Ht. reflexivity.
  - intros y. apply length_map.
  - apply nth_error_Some. rewrite Ht. discriminate.
Qed.

End ProductFacts.

(** ** Full enumeration *)

Section FullEnumeration.

Variable T : tables.

Let fts := keys (FAULT_DEFINITIONS T).
Let tts := keys (TARGET_TIERS T).
Let svs := SEVERITIES T.

Lemma full_combinations_in (c : list string) :
  In c (full_combinations T) <->
  exists ft tgt sv, c = [ft; tgt; sv] /\ In ft fts /\ In tgt tts /\ In sv svs.
Proof.
  unfold full_combinations. fold fts tts svs.
  rewrite in_product_cons. split.
  - intros (ft & t1 & -> & Hft & H1).
    apply in_product_cons in H1. destruct H1 as (tgt & t2 & -> & Htt & H2).
    apply in_product_cons in H2. destruct H2 as (sv & t3 & -> & Hsv & H3).
    simpl in H3. destruct H3 as [<-|[]].
    exists ft, tgt, sv. auto.
  - intros (ft & tgt & sv & -> & Hft & Htt & Hsv).
    exists ft, [tgt; sv]. split; [reflexivity|]. split; [exact Hft|].
    apply in_product_cons. exists tgt, [sv]. split; [reflexivity|].
    split; [exact Htt|].
    apply in_product_cons. exists sv, []. simpl. auto.
Qed.

Lemma full_combinations_count :
  length (full_combinations T) = length fts * length tts * length svs.
Proof.
  unfold full_combinations. rewrite product_count. simpl.
  fold fts tts svs. lia.
Qed.

Lemma full_combinations_nth (i j k : nat) (ft tgt sv : string) :
  nth_error fts i = Some ft ->
  nth_error tts j = Some tgt ->
  nth_error svs k = Some sv ->
  nth_error (full_combinations T)
            (i * (length tts * length svs) + (j * length svs + k))
  = Some [ft; tgt; sv].
Proof.
  intros Hft Htt Hsv. unfold full_combinations. fold fts tts svs.
  assert (H3 : nth_error (product [svs]) k = Some [sv]).
  { replace k with (k * length (product (@nil (list string))) + 0)
      by (simpl; lia).
    apply product_nth_cons; [exact Hsv | reflexivity]. }
  assert (H2 : nth_error (product [tts; svs]) (j * length svs + k)
               = Some [tgt; sv]).
  { replace (length svs) with (length (product [svs]))
      by (rewrite product_count; simpl; lia).
    apply product_nth_cons; assumption. }
  replace (length tts * length svs) with (length (product [tts; svs]))
    by (rewrite product_count; simpl; lia).
  apply product_nth_cons; assumption.
Qed.

End FullEnumeration.

Lemma distinct_NoDup (l : list string) : distinct l = true -> NoDup l.
Proof.
  induction l as [|x xs IH]; simpl; intros H.
  - constructor.
  - apply andb_true_iff in H. destruct H as [Hx Hxs].
    constructor; [|apply IH; exact Hxs].
    intros Hin. apply negb_true_iff in Hx.
    assert (E : existsb (String.eqb x) xs = true).
    { apply existsb_exists. exists x. split; [exact Hin|apply String.eqb_refl]. }
    congruence.
Qed.

(** C2: on the script's tables, [full_combinations] is exactly the
    Cartesian product of the three value lists (its members are the
    triples of one fault type, one target tier and one severity), it has
    11 * 8 * 3 = 264 tuples, none repeated, and the tuple at position [k]
    has severity number [k mod 3], target tier number [(k / 3) mod 8] and
    fault type number [k / 24]: severity moves on every step, the target
    tier every 3 steps, the fault type every 24 steps. *)
Theorem full_combinations_cartesian :
  let fts := keys (FAULT_DEFINITIONS shipped) in
  let tts := keys (TARGET_TIERS shipped) in
  let svs := SEVERITIES shipped in
  (forall c, In c (full_combinations shipped) <->
     exists ft tgt sv,
       c = [ft; tgt; sv] /\ In ft fts /\ In tgt tts /\ In sv svs)
  /\ length fts = 11 /\ length tts = 8 /\ length svs = 3
  /\ length (full_combinations shipped)
     = length fts * length tts * length svs
  /\ length (full_combinations shipped) = 264
  /\ NoDup (full_combinations shipped)
  /\ (forall k, k < 264 ->
        nth_error (full_combinations shipped) k
        = Some [nth (k / 24) fts ""; nth (k / 3 mod 8) tts "";
                nth (k mod 3) svs ""]).
Proof.
  intros fts tts svs.
  split; [exact (full_combinations_in shipped)|].
  split; [reflexivity|]. split; [reflexivity|]. split; [reflexivity|].
  split; [exact (full_combinations_count shipped)|].
  split; [rewrite full_combinations_count; reflexivity|].
  split.
  - unfold full_combinations. apply NoDup_product.
    repeat apply Forall_cons; try apply Forall_nil;
      apply distinct_NoDup; vm_compute; reflexivity.
  - intros k Hk.
    assert (Hf : length fts = 11) by reflexivity.
    assert (Ht : length tts = 8) by reflexivity.
    assert (Hs : length svs = 3) by reflexivity.
    replace k with
      (k / 24 * (length tts * length svs)
       + (k / 3 mod 8 * length svs + k mod 3)) at 1
      by (rewrite Ht, Hs;
          replace (k / 24) with (k / 3 / 8)
            by (rewrite Nat.Div0.div_div; reflexivity);
          pose proof (Nat.div_mod_eq k 3); pose proof (Nat.div_mod_eq (k / 3) 8);
          lia).
    apply full_combinations_nth; apply nth_error_nth'.
    + fold fts. rewrite Hf. apply Nat.Div0.div_lt_upper_bound. lia.
    + fold tts. rewrite Ht. apply Nat.mod_upper_bound. lia.
    + fold svs. rewrite Hs. apply Nat.mod_upper_bound. lia.
Qed.

(** ** Lookups *)

Section Lookups.

Context {V : Type}.

Lemma dict_find_keys (d : dict V) (k : string) :
  In k (keys d) <-> exists v, dict_find d k = Some v.
Proof.
  induction d as [|[k' v'] d IH]; simpl.
  - split; [intros []|intros [v Hv]; discriminate].
  - destruct (String.eqb_spec k k') as [->|Hne].
    + split; [intros _; exists v'; reflexivity|intros _; left; reflexivity].
    + rewrite <- IH. split; [intros [E|H]; [congruence|exact H]|auto].
Qed.

Lemma dict_find_absent (d : dict V) (k : string) :
  ~ In k (keys d) -> dict_find d k = None.
Proof.
  intros H. destruct (dict_find d k) as [v|] eqn:E; [|reflexivity].
  exfalso. apply H. apply dict_find_keys. exists v. exact E.
Qed.

Lemma getitem_found (d : dict V) (k : string) (v : V) :
  dict_find d k = Some v -> getitem d k = inr v.
Proof. intros H. unfold getitem. rewrite H. reflexivity. Qed.

Lemma getitem_missing (d : dict V) (k : string) :
  dict_find d k = None -> getitem d k = inl (KeyError k).
Proof. intros H. unfold getitem. rewrite H. reflexivity. Qed.

End Lookups.

(** Membership in a list of strings is decidable. *)
Lemma in_strings_dec (k : string) (l : list string) : {In k l} + {~ In k l}.
Proof. apply in_dec. exact string_dec. Qed.

(** ** The scenario builder *)

Section BuilderErrors.

Variable T : tables.

Lemma build_scenario_no_fault (ft tgt sv : string) :
  dict_find (FAULT_DEFINITIONS T) ft = None ->
  build_scenario T ft tgt sv = inl (KeyError ft).
Proof.
  intros H. unfold build_scenario. rewrite (getitem_missing _ _ H). reflexivity.
Qed.

Lemma build_scenario_no_tier (ft tgt sv : string) (fd : fault_def) :
  dict_find (FAULT_DEFINITIONS T) ft = Some fd ->
  dict_find (TARGET_TIERS T) tgt = None ->
  build_scenario T ft tgt sv = inl (KeyError tgt).
Proof.
  intros Hf Ht. unfold build_scenario.
  rewrite (getitem_found _ _ _ Hf), (getitem_missing _ _ Ht). reflexivity.
Qed.

Lemma build_scenario_no_timing (ft tgt sv : string) (fd : fault_def) (tr : tier) :
  dict_find (FAULT_DEFINITIONS T) ft = Some fd ->
  dict_find (TARGET_TIERS T) tgt = Some tr ->
  dict_find (TIMING T) sv = None ->
  build_scenario T ft tgt sv = inl (KeyError sv).
Proof.
  intros Hf Ht Hs. unfold build_scenario.
  rewrite (getitem_found _ _ _ Hf), (getitem_found _ _ _ Ht),
    (getitem_missing _ _ Hs).
  reflexivity.
Qed.

(** A severity that has timings but no parameter set under the fault. *)
Lemma build_scenario_no_level (ft tgt sv : string) (fd : fault_def) (tr : tier)
  (tm : timing) :
  dict_find (FAULT_DEFINITIONS T) ft = Some fd ->
  dict_find (TARGET_TIERS T) tgt = Some tr ->
  dict_find (TIMING T) sv = Some tm ->
  dict_find (levels fd) sv = None ->
  build_scenario T ft tgt sv = inl (KeyError sv).
Proof.
  intros Hf Ht Hs Hl. unfold build_scenario.
  rewrite (getitem_found _ _ _ Hf), (getitem_found _ _ _ Ht),
    (getitem_found _ _ _ Hs).
  simpl. rewrite (getitem_missing _ _ Hl). reflexivity.
Qed.

End BuilderErrors.

Lemma build_scenario_declared (ft tgt sv : string) :
  In ft (keys (FAULT_DEFINITIONS shipped)) ->
  In tgt (keys (TARGET_TIERS shipped)) ->
  In sv (SEVERITIES shipped) ->
  exists r, build_scenario shipped ft tgt sv = inr r.
Proof.
  intros Hft Htt Hsv.
  assert (H : match build_scenario shipped ft tgt sv with
              | inr _ => true
              | inl _ => false
              end = true).
  { in_cases Hft; in_cases Htt; in_cases Hsv; vm_compute; reflexivity. }
  destruct (build_scenario shipped ft tgt sv) as [e|r];
    [discriminate|exists r; reflexivity].
Qed.

(** C7: on the script's tables, [build_scenario] returns a record when
    the fault type, the target tier and the severity are all declared
    values; otherwise it raises [KeyError], a [LookupError], carrying
    the first of the three, in that order, that is not declared. *)
Theorem build_scenario_lookup_error (ft tgt sv : string) :
  let fts := keys (FAULT_DEFINITIONS shipped) in
  let tts := keys (TARGET_TIERS shipped) in
  let svs := SEVERITIES shipped in
  (In ft fts -> In tgt tts -> In sv svs ->
     exists r, build_scenario shipped ft tgt sv = inr r)
  /\ (~ In ft fts -> build_scenario shipped ft tgt sv = inl (KeyError ft))
  /\ (In ft fts -> ~ In tgt tts ->
        build_scenario shipped ft tgt sv = inl (KeyError tgt))
  /\ (In ft fts -> In tgt tts -> ~ In sv svs ->
        build_scenario shipped ft tgt sv = inl (KeyError sv))
  /\ (forall e, build_scenario shipped ft tgt sv = inl e ->
        is_LookupError e = true).
Proof.
  intros fts tts svs.
  assert (Hno_ft : ~ In ft fts ->
            build_scenario shipped ft tgt sv = inl (KeyError ft)).
  { intros H. apply build_scenario_no_fault. apply dict_find_absent. exact H. }
  assert (Hno_tt : In ft fts -> ~ In tgt tts ->
            build_scenario shipped ft tgt sv = inl (KeyError tgt)).
  { intros Hft H. apply dict_find_keys in Hft. destruct Hft as [fd Hfd].
    apply (build_scenario_no_tier shipped ft tgt sv fd Hfd).
    apply dict_find_absent. exact H. }
  assert (Hno_sv : In ft fts -> In tgt tts -> ~ In sv svs ->
            build_scenario shipped ft tgt sv = inl (KeyError sv)).
  { intros Hft Htt H. apply dict_find_keys in Hft. destruct Hft as [fd Hfd].
    apply dict_find_keys in Htt. destruct Htt as [tr Htr].
    apply (build_scenario_no_timing shipped ft tgt sv fd tr Hfd Htr).
    apply dict_find_absent. exact H. }
  split; [apply build_scenario_declared|].
  split; [exact Hno_ft|]. split; [exact Hno_tt|]. split; [exact Hno_sv|].
  intros e He.
  destruct (in_strings_dec ft fts) as [Hft|Hft];
    [|rewrite (Hno_ft Hft) in He; inversion He; reflexivity].
  destruct (in_strings_dec tgt tts) as [Htt|Htt];
    [|rewrite (Hno_tt Hft Htt) in He; inversion He; reflexivity].
  destruct (in_strings_dec sv svs) as [Hsv|Hsv];
    [|rewrite (Hno_sv Hft Htt Hsv) in He; inversion He; reflexivity].
  destruct (build_scenario_declared ft tgt sv Hft Htt Hsv) as [r Hr].
  congruence.
Qed.

(** C6: the combination (packet_loss, validator1_heimdall, moderate)
    assembles to a record whose name ends with the slug 40pct followed
    by validator1-heimdall, whose fault list has exactly one entry, of
    type network with parameters packet_loss 40, target_proto tcp,udp
    and device eth0, whose duration is 5m and whose three success
    criteria all carry the window 5m. *)
Theorem build_scenario_case_A :
  exists r f,
    build_scenario shipped "packet_loss" "validator1_heimdall" "moderate"
    = inr r
    /\ (slugs <- (SEVERITY_SLUGS shipped).["packet_loss"] ;;
        slugs.["moderate"]) = inr "40pct"
    /\ (exists prefix,
          name (s_metadata r)
          = prefix ++ "40pct" ++ "-" ++ "validator1-heimdall")
    /\ faults (s_spec r) = [f]
    /\ f_type f = "network"
    /\ f_params f = [("packet_loss", PyInt 40);
                     ("target_proto", PyStr "tcp,udp");
                     ("device", PyStr "eth0")]
    /\ s_duration (s_spec r) = "5m"
    /\ length (success_criteria (s_spec r)) = 3
    /\ Forall (fun c => dict_find c "window" = Some (PyStr "5m"))
              (success_criteria (s_spec r)).
Proof.
  eexists. eexists.
  split; [vm_compute; reflexivity|].
  split; [reflexivity|].
  split; [exists "gen-packet-loss-"; reflexivity|].
  split; [reflexivity|].
  split; [reflexivity|].
  split; [reflexivity|].
  split; [reflexivity|].
  split; [reflexivity|].
  repeat constructor.
Qed.

(** ** Names *)

Section Names.

Variable T : tables.

(** Whenever the builder and the preview row both succeed, they
    computed the same name. *)
Lemma print_list_row_name (ft tgt sv : string) (r : scenario) (row : list_row) :
  build_scenario T ft tgt sv = inr r ->
  print_list_row T ft tgt sv = inr row ->
  row_name row = name (s_metadata r).
Proof.
  unfold build_scenario, print_list_row, scenario_description, scenario_name.
  destruct ((FAULT_DEFINITIONS T).[ft]) as [e|fd]; simpl; [discriminate|].
  destruct ((TARGET_TIERS T).[tgt]) as [e|tr]; simpl; [discriminate|].
  destruct ((TIMING T).[sv]) as [e|tm]; simpl; [discriminate|].
  destruct ((levels fd).[sv]) as [e|lv]; simpl; [discriminate|].
  destruct (mapM _ (selectors tr)) as [e|fs]; simpl; [discriminate|].
  destruct ((SEVERITY_SLUGS T).[ft]) as [e|slugs]; simpl; [discriminate|].
  destruct (slugs.[sv]) as [e|slug]; simpl; [discriminate|].
  destruct ((SEVERITY_LABELS T).[ft]) as [e|labels]; simpl; [discriminate|].
  destruct (labels.[sv]) as [e|label]; simpl; [discriminate|].
  intros Hr Hrow. inversion Hr. inversion Hrow. reflexivity.
Qed.

End Names.

Lemma print_list_row_declared (ft tgt sv : string) :
  In ft (keys (FAULT_DEFINITIONS shipped)) ->
  In tgt (keys (TARGET_TIERS shipped)) ->
  In sv (SEVERITIES shipped) ->
  exists row, print_list_row shipped ft tgt sv = inr row.
Proof.
  intros Hft Htt Hsv.
  assert (H : match print_list_row shipped ft tgt sv with
              | inr _ => true
              | inl _ => false
              end = true).
  { in_cases Hft; in_cases Htt; in_cases Hsv; vm_compute; reflexivity. }
  destruct (print_list_row shipped ft tgt sv) as [e|row];
    [discriminate|exists row; reflexivity].
Qed.

(** C10: for every combination of declared values, the builder returns
    a record, the preview listing computes a row, and the row's name is
    the record's metadata name. *)
Theorem print_list_name_agrees (ft tgt sv : string) :
  In ft (keys (FAULT_DEFINITIONS shipped)) ->
  In tgt (keys (TARGET_TIERS shipped)) ->
  In sv (SEVERITIES shipped) ->
  exists r row,
    build_scenario shipped ft tgt sv = inr r
    /\ print_list_row shipped ft tgt sv = inr row
    /\ row_name row = name (s_metadata r).
Proof.
  intros Hft Htt Hsv.
  destruct (build_scenario_declared ft tgt sv Hft Htt Hsv) as [r Hr].
  destruct (print_list_row_declared ft tgt sv Hft Htt Hsv) as [row Hrow].
  exists r, row. split; [exact Hr|]. split; [exact Hrow|].
  exact (print_list_row_name shipped ft tgt sv r row Hr Hrow).
Qed.

Lemma print_list_name_agrees_witness :
  exists r row,
    build_scenario shipped "container_restart" "all_both" "severe" = inr r
    /\ print_list_row shipped "container_restart" "all_both" "severe" = inr row
    /\ row_name row = name (s_metadata r).
Proof.
  apply (print_list_name_agrees "container_restart" "all_both" "severe");
    simpl; tauto.
Defined.

Section MapM.

Context {A B : Type}.

Variable f : A -> result B.

Lemma mapM_inr (l : list A) (ys : list B) :
  mapM f l = inr ys -> Forall2 (fun x y => f x = inr y) l ys.
Proof.
  revert ys. induction l as [|x l IH]; simpl; intros ys H.
  - inversion H. constructor.
  - destruct (f x) as [e|y] eqn:Ex; simpl in H; [discriminate|].
    destruct (mapM f l) as [e|ys'] eqn:El; simpl in H; [discriminate|].
    inversion H. subst. constructor; [exact Ex|apply IH; reflexivity].
Qed.

Lemma Forall2_image (l : list A) (ys : list B) (x : A) :
  Forall2 (fun x y => f x = inr y) l ys ->
  In x l -> exists y, f x = inr y /\ In y ys.
Proof.
  induction 1 as [|a b l ys Hab _ IH]; intros Hx.
  - destruct Hx.
  - destruct Hx as [->|Hx].
    + exists b. split; [exact Hab|left; reflexivity].
    + destruct (IH Hx) as (y & Hy & Hin). exists y. split; [exact Hy|].
      right. exact Hin.
Qed.

(** Distinct results come from distinct arguments. *)
Lemma Forall2_NoDup_injective (l : list A) (ys : list B) :
  Forall2 (fun x y => f x = inr y) l ys ->
  NoDup ys ->
  forall x x' y, In x l -> In x' l -> f x = inr y -> f x' = inr y -> x = x'.
Proof.
  induction 1 as [|a b l ys Hab Hrest IH]; intros Hnd x x' y Hx Hx' Hy Hy'.
  - destruct Hx.
  - inversion Hnd as [|? ? Hb Hnd']; subst.
    destruct Hx as [->|Hx]; destruct Hx' as [->|Hx'].
    + reflexivity.
    + exfalso. apply Hb.
      destruct (Forall2_image l ys x' Hrest Hx') as (y' & Hy'' & Hin).
      congruence.
    + exfalso. apply Hb.
      destruct (Forall2_image l ys x Hrest Hx) as (y' & Hy'' & Hin).
      congruence.
    + exact (IH Hnd' x x' y Hx Hx' Hy Hy').
Qed.

End MapM.

(** The 264 assembled names are pairwise different. *)
Lemma shipped_names_distinct :
  exists names,
    mapM (assembled_name shipped) (full_combinations shipped) = inr names
    /\ NoDup names.
Proof.
  assert (H : match mapM (assembled_name shipped) (full_combinations shipped)
              with
              | inr names => distinct names
              | inl _ => false
              end = true) by (vm_compute; reflexivity).
  destruct (mapM (assembled_name shipped) (full_combinations shipped))
    as [e|names]; [discriminate|].
  exists names. split; [reflexivity|]. apply distinct_NoDup. exact H.
Qed.

(** C4: over the full combination domain of the script's tables, every
    combination assembles to a record, and two different combinations
    assemble to records with different names. *)
Theorem scenario_name_injective (c1 c2 : list string) :
  In c1 (full_combinations shipped) ->
  In c2 (full_combinations shipped) ->
  c1 <> c2 ->
  exists n1 n2,
    assembled_name shipped c1 = inr n1
    /\ assembled_name shipped c2 = inr n2
    /\ n1 <> n2.
Proof.
  intros H1 H2 Hne.
  destruct shipped_names_distinct as (names & Hnames & Hnd).
  apply mapM_inr in Hnames.
  destruct (Forall2_image _ _ _ c1 Hnames H1) as (n1 & Hn1 & _).
  destruct (Forall2_image _ _ _ c2 Hnames H2) as (n2 & Hn2 & _).
  exists n1, n2. split; [exact Hn1|]. split; [exact Hn2|].
  intros E. subst n2. apply Hne.
  exact (Forall2_NoDup_injective _ _ _ Hnames Hnd c1 c2 n1 H1 H2 Hn1 Hn2).
Qed.

Lemma scenario_name_injective_witness :
  exists n1 n2,
    assembled_name shipped ["latency"; "rpc_nodes"; "mild"] = inr n1
    /\ assembled_name shipped ["disk_io"; "rpc_nodes"; "mild"] = inr n2
    /\ n1 <> n2.
Proof.
  apply (scenario_name_injective ["latency"; "rpc_nodes"; "mild"]
                                 ["disk_io"; "rpc_nodes"; "mild"]).
  - apply (full_combinations_in shipped).
    exists "latency", "rpc_nodes", "mild". simpl. tauto.
  - apply (full_combinations_in shipped).
    exists "disk_io", "rpc_nodes", "mild". simpl. tauto.
  - discriminate.
Defined.

(** ** Requirement sets *)

Lemma req_eqb_eq (a b : req) : req_eqb a b = true <-> a = b.
Proof.
  destruct a as [[[i vi] j] vj], b as [[[i' vi'] j'] vj']. simpl.
  rewrite !andb_true_iff, !Nat.eqb_eq, !String.eqb_eq.
  split; [intros [[[-> ->] ->] ->]; reflexivity|].
  intros E. inversion E. auto.
Qed.

Lemma mem_In (x : req) (s : ReqSet.t) : ReqSet.mem x s = true <-> In x s.
Proof.
  unfold ReqSet.mem. rewrite existsb_exists. split.
  - intros (y & Hy & E). apply req_eqb_eq in E. subst. exact Hy.
  - intros H. exists x. split; [exact H|]. apply req_eqb_eq. reflexivity.
Qed.

Lemma mem_add (x y : req) (s : ReqSet.t) :
  ReqSet.mem x (ReqSet.add y s) = true <-> x = y \/ ReqSet.mem x s = true.
Proof.
  unfold ReqSet.add. destruct (ReqSet.mem y s) eqn:E.
  - split; [auto|]. intros [->|H]; assumption.
  - rewrite !mem_In. simpl. split; intros [H|H]; auto.
Qed.

(** Adding a batch of requirements adds exactly its elements. *)
Lemma mem_add_all (A : Type) (f : A -> req) (l : list A) (x : req) (s : ReqSet.t) :
  ReqSet.mem x (fold_left (fun s a => ReqSet.add (f a) s) l s) = true <->
  ReqSet.mem x s = true \/ exists a, In a l /\ x = f a.
Proof.
  revert s. induction l as [|a l IH]; intros s; simpl.
  - split; [auto|]. intros [H|(a & [] & _)]. exact H.
  - rewrite IH, mem_add. split.
    + intros [[->|H]|(b & Hb & ->)]; eauto.
    + intros [H|(b & [<-|Hb] & ->)]; eauto.
Qed.

Lemma mem_of_list (l : list req) (x : req) :
  ReqSet.mem x (ReqSet.of_list l) = true <-> In x l.
Proof.
  unfold ReqSet.of_list.
  rewrite (mem_add_all req (fun a => a) l x ReqSet.empty). split.
  - intros [H|(a & Ha & ->)]; [discriminate|exact Ha].
  - intros H. right. exists x. auto.
Qed.

Lemma subset_spec (a b : ReqSet.t) :
  ReqSet.subset a b = true <-> forall x, In x a -> In x b.
Proof.
  unfold ReqSet.subset. rewrite forallb_forall. split.
  - intros H x Hx. apply mem_In. apply H. exact Hx.
  - intros H x Hx. apply mem_In. apply H. exact Hx.
Qed.

Lemma index_pairs_spec (n i j : nat) :
  In (i, j) (Pairwise.index_pairs n) <-> i < j < n.
Proof.
  unfold Pairwise.index_pairs. rewrite in_flat_map. split.
  - intros (i' & Hi' & H). apply in_map_iff in H.
    destruct H as (j' & E & Hj'). inversion E. subst.
    apply in_seq in Hi'. apply in_seq in Hj'. lia.
  - intros H. exists i. split; [apply in_seq; lia|].
    apply in_map. apply in_seq. lia.
Qed.

(** ** The scan of one round *)

Section ScanFacts.

Import Pairwise.

Variable dims : list (list string).
Variable covered : ReqSet.t.

Lemma new_count_nonneg (c : list string) : (0 <= new_count dims covered c)%Z.
Proof. unfold new_count. lia. Qed.

(** The rule names at most one tuple. *)
Lemma first_max_unique (combos : list (list string)) (k k' : nat)
  (c c' : list string) :
  first_max dims covered combos k c ->
  first_max dims covered combos k' c' ->
  k = k' /\ c = c'.
Proof.
  intros (Hk & Hmax & Hfirst) (Hk' & Hmax' & Hfirst').
  assert (E : k = k').
  { destruct (Nat.lt_trichotomy k k') as [Hlt|[Heq|Hgt]]; [|exact Heq|].
    - pose proof (Hfirst' k c Hlt Hk).
      pose proof (Hmax c' (nth_error_In _ _ Hk')). lia.
    - pose proof (Hfirst k' c' Hgt Hk').
      pose proof (Hmax' c (nth_error_In _ _ Hk)). lia. }
  split; [exact E|]. subst k'. congruence.
Qed.

Lemma scan_step_inv (pre : list (list string)) (best : option (list string) * Z)
  (x : list string) :
  scan_inv dims covered pre best ->
  scan_inv dims covered (pre ++ [x]) (scan_step dims covered best x).
Proof.
  intros [[-> ->]|(k & c & -> & Hk & Hmax & Hfirst)]; right; unfold scan_step.
  - pose proof (new_count_nonneg x) as Hx. simpl snd.
    destruct (Z.gtb_spec (new_count dims covered x) (-1)) as [_|Hle]; [|lia].
    exists 0, x. split; [reflexivity|]. split; [reflexivity|]. split.
    + intros c' [<-|[]]. lia.
    + intros k' c' Hk'. lia.
  - simpl snd.
    assert (Hklt : k < length pre).
    { apply nth_error_Some. rewrite Hk. discriminate. }
    destruct (Z.gtb_spec (new_count dims covered x) (new_count dims covered c))
      as [Hgt|Hle].
    + exists (length pre), x. split; [reflexivity|]. split; [|split].
      * rewrite nth_error_app2, Nat.sub_diag by lia. reflexivity.
      * intros c' Hc'. apply in_app_or in Hc'.
        destruct Hc' as [Hc'|[<-|[]]]; [|lia].
        pose proof (Hmax c' Hc'). lia.
      * intros k' c' Hk' Hn. rewrite nth_error_app1 in Hn by exact Hk'.
        pose proof (Hmax c' (nth_error_In _ _ Hn)). lia.
    + exists k, c. split; [reflexivity|]. split; [|split].
      * rewrite nth_error_app1 by exact Hklt. exact Hk.
      * intros c' Hc'. apply in_app_or in Hc'.
        destruct Hc' as [Hc'|[<-|[]]]; [apply Hmax; exact Hc'|exact Hle].
      * intros k' c' Hk' Hn. rewrite nth_error_app1 in Hn by lia.
        exact (Hfirst k' c' Hk' Hn).
Qed.

Lemma scan_fold_inv (l pre : list (list string))
  (best : option (list string) * Z) :
  scan_inv dims covered pre best ->
  scan_inv dims covered (pre ++ l) (fold_left (scan_step dims covered) l best).
Proof.
  revert pre best. induction l as [|x l IH]; intros pre best H; simpl.
  - rewrite app_nil_r. exact H.
  - replace (pre ++ x :: l)%list with ((pre ++ [x]) ++ l)%list
      by (rewrite <- app_assoc; reflexivity).
    apply IH. apply scan_step_inv. exact H.
Qed.

(** The scan returns nothing on an empty list and the tuple the rule
    names, with its count, otherwise. *)
Lemma scan_spec (combos : list (list string)) :
  (combos = [] /\ scan dims covered combos = (None, (-1)%Z))
  \/ exists k c, scan dims covered combos = (Some c, new_count dims covered c)
                 /\ first_max dims covered combos k c.
Proof.
  apply (scan_fold_inv combos [] (None, (-1)%Z)). left. auto.
Qed.

End ScanFacts.

(** ** Tuples of the product and the requirements they meet *)

Section ProductItems.

Context {A : Type}.

Lemma product_item (pools : list (list A)) (c : list A) (d : A) :
  In c (product pools) ->
  forall i, i < length pools -> In (nth i c d) (nth i pools []).
Proof.
  revert c. induction pools as [|p ps IH]; intros c Hc i Hi; simpl in Hi.
  - lia.
  - apply in_product_cons in Hc. destruct Hc as (x & t & -> & Hx & Ht).
    destruct i as [|i]; simpl; [exact Hx|]. apply IH; [exact Ht|lia].
Qed.

(** Any choice of one value per pool is a tuple of the product. *)
Lemma product_choice (pools : list (list A)) (pick : nat -> A) (s : nat) :
  (forall i, i < length pools -> In (pick (s + i)) (nth i pools [])) ->
  In (map pick (seq s (length pools))) (product pools).
Proof.
  revert s. induction pools as [|p ps IH]; intros s H.
  - left. reflexivity.
  - simpl length. simpl seq. simpl map. apply in_product_cons.
    exists (pick s), (map pick (seq (S s) (length ps))).
    split; [reflexivity|]. split.
    + specialize (H 0). simpl in H. rewrite Nat.add_0_r in H.
      apply H. lia.
    + apply IH. intros i Hi. specialize (H (S i)). simpl in H.
      replace (S s + i) with (s + S i) by lia. apply H. lia.
Qed.

Lemma product_nonempty (pools : list (list A)) :
  Forall (fun p => p <> []) pools -> product pools <> [].
Proof.
  induction 1 as [|p ps Hp _ IH]; simpl.
  - discriminate.
  - destruct p as [|x p]; [congruence|]. simpl.
    destruct (product ps); [congruence|discriminate].
Qed.

Lemma product_empty_pool (pools : list (list A)) :
  In [] pools -> product pools = [].
Proof.
  induction pools as [|p ps IH]; intros H; simpl.
  - destruct H.
  - destruct H as [->|H]; [reflexivity|].
    rewrite (IH H). induction p; simpl; auto.
Qed.

End ProductItems.

(** With no empty pool, any two values of two pools occur together in
    some tuple. *)
Lemma product_pair (pools : list (list string)) (i j : nat) (vi vj : string) :
  Forall (fun p => p <> []) pools ->
  i < j < length pools ->
  In vi (nth i pools []) ->
  In vj (nth j pools []) ->
  exists c, In c (product pools)
            /\ Pairwise.item c i = vi /\ Pairwise.item c j = vj.
Proof.
  intros Hne Hij Hvi Hvj.
  pose (pick := fun k => if Nat.eqb k i then vi
                         else if Nat.eqb k j then vj
                         else hd "" (nth k pools [])).
  exists (map pick (seq 0 (length pools))).
  split; [|split].
  - apply product_choice. intros k Hk. simpl. unfold pick.
    destruct (Nat.eqb_spec k i) as [->|_]; [exact Hvi|].
    destruct (Nat.eqb_spec k j) as [->|_]; [exact Hvj|].
    assert (Hk' : nth k pools [] <> []).
    { rewrite Forall_forall in Hne. apply Hne. apply nth_In. exact Hk. }
    destruct (nth k pools []) as [|x p]; [congruence|left; reflexivity].
  - unfold Pairwise.item.
    rewrite (nth_indep _ "" (pick 0)) by (rewrite length_map, length_seq; lia).
    rewrite map_nth, seq_nth by lia. unfold pick.
    rewrite Nat.eqb_refl. reflexivity.
  - unfold Pairwise.item.
    rewrite (nth_indep _ "" (pick 0)) by (rewrite length_map, length_seq; lia).
    rewrite map_nth, seq_nth by lia. unfold pick. simpl.
    rewrite Nat.eqb_refl.
    destruct (Nat.eqb_spec j i) as [E|_]; [lia|reflexivity].
Qed.

(** ** The greedy loop *)

Section LoopFacts.

Import Pairwise.

Variable dims : list (list string).

Lemma required_spec (i j : nat) (vi vj : string) :
  In (i, vi, j, vj) (required dims) <->
  i < j < n dims /\ In vi (nth i dims []) /\ In vj (nth j dims []).
Proof.
  rewrite <- mem_In. unfold required. rewrite mem_of_list, in_flat_map. split.
  - intros ([i' j'] & Hij & H). simpl in H.
    apply in_flat_map in H. destruct H as (vi' & Hvi & H).
    apply in_map_iff in H. destruct H as (vj' & E & Hvj).
    inversion E. subst. apply index_pairs_spec in Hij. auto.
  - intros (Hij & Hvi & Hvj). exists (i, j).
    split; [apply index_pairs_spec; exact Hij|]. simpl.
    apply in_flat_map. exists vi. split; [exact Hvi|].
    apply in_map_iff. exists vj. auto.
Qed.

(** Every projection of a tuple of the product is a requirement. *)
Lemma projection_required (c : list string) (ij : nat * nat) :
  In c (all_combos dims) -> In ij (index_pairs (n dims)) ->
  In (projection c ij) (required dims).
Proof.
  intros Hc Hij. destruct ij as [i j]. unfold projection. simpl.
  pose proof (proj1 (index_pairs_spec _ _ _) Hij) as Hlt.
  apply required_spec. split; [exact Hlt|].
  unfold n in Hlt. split; apply product_item; try exact Hc; lia.
Qed.

Lemma mem_mark (covered : ReqSet.t) (c : list string) (x : req) :
  ReqSet.mem x (mark dims covered c) = true <->
  ReqSet.mem x covered = true
  \/ exists ij, In ij (index_pairs (n dims)) /\ x = projection c ij.
Proof. unfold mark. apply mem_add_all. Qed.

Lemma new_count_zero (covered : ReqSet.t) (c : list string) :
  new_count dims covered c = 0%Z <->
  forall ij, In ij (index_pairs (n dims)) ->
             ReqSet.mem (projection c ij) covered = true.
Proof.
  unfold new_count. split.
  - intros H ij Hij.
    destruct (ReqSet.mem (projection c ij) covered) eqn:E; [reflexivity|].
    assert (Hin : In ij (filter
              (fun ij => negb (ReqSet.mem (projection c ij) covered))
              (index_pairs (n dims)))).
    { apply filter_In. rewrite E. auto. }
    destruct (filter _ (index_pairs (n dims))); [destruct Hin|].
    simpl in H. lia.
  - intros H.
    replace (filter (fun ij => negb (ReqSet.mem (projection c ij) covered))
                    (index_pairs (n dims))) with (@nil (nat * nat));
      [reflexivity|].
    symmetry. induction (index_pairs (n dims)) as [|ij l IH]; simpl.
    + reflexivity.
    + rewrite (H ij) by (left; reflexivity). simpl.
      apply IH. intros ij' Hij'. apply H. right. exact Hij'.
Qed.

(** A tuple with a positive count has a projection outside [covered]. *)
Lemma new_count_fresh (covered : ReqSet.t) (c : list string) :
  new_count dims covered c <> 0%Z ->
  exists ij, In ij (index_pairs (n dims))
             /\ ReqSet.mem (projection c ij) covered = false.
Proof.
  unfold new_count. intros H.
  destruct (filter (fun ij => negb (ReqSet.mem (projection c ij) covered))
                   (index_pairs (n dims))) as [|ij l] eqn:E.
  - simpl in H. congruence.
  - assert (Hin : In ij (ij :: l)) by (left; reflexivity).
    rewrite <- E in Hin. apply filter_In in Hin. destruct Hin as [Hij Hm].
    exists ij. split; [exact Hij|]. apply negb_true_iff. exact Hm.
Qed.

Lemma loop_inv_init : loop_inv dims ReqSet.empty [].
Proof.
  split; [intros c []|]. split; [constructor|].
  intros x. split; [discriminate|]. intros (c & ij & [] & _).
Qed.

Lemma loop_inv_step (covered : ReqSet.t) (selected : list (list string))
  (c : list string) :
  loop_inv dims covered selected ->
  In c (all_combos dims) ->
  new_count dims covered c <> 0%Z ->
  loop_inv dims (mark dims covered c) (selected ++ [c]).
Proof.
  intros (Hsub & Hnd & Hcov) Hc Hnew. split; [|split].
  - intros c' Hc'. apply in_app_or in Hc'.
    destruct Hc' as [Hc'|[<-|[]]]; [apply Hsub; exact Hc'|exact Hc].
  - apply NoDup_app; [exact Hnd|repeat constructor; intros []|].
    intros c' Hc' [<-|[]].
    destruct (new_count_fresh covered c Hnew) as (ij & Hij & Hm).
    assert (Hm' : ReqSet.mem (projection c ij) covered = true).
    { apply Hcov. exists c, ij. auto. }
    congruence.
  - intros x. rewrite mem_mark, Hcov. split.
    + intros [(c' & ij & Hc' & Hij & ->)|(ij & Hij & ->)].
      * exists c', ij. split; [apply in_or_app; left; exact Hc'|auto].
      * exists c, ij. split; [apply in_or_app; right; left; reflexivity|auto].
    + intros (c' & ij & Hc' & Hij & ->). apply in_app_or in Hc'.
      destruct Hc' as [Hc'|[<-|[]]].
      * left. exists c', ij. auto.
      * right. exists ij. auto.
Qed.

(** Whatever the loop returns satisfies the invariant together with
    one of the three exit conditions. *)
Lemma loop_result (fuel : nat) :
  forall covered selected res,
    loop_inv dims covered selected ->
    greedy_loop dims fuel covered selected = Some res ->
    exists covered', loop_inv dims covered' res /\ loop_exit dims covered'.
Proof.
  induction fuel as [|fuel IH]; intros covered selected res Hinv Hres;
    simpl in Hres; [discriminate|].
  destruct (ReqSet.proper_subset covered (required dims)) eqn:Hlt.
  - destruct (scan_spec dims covered (all_combos dims))
      as [[Hnil Hscan]|(k & c & Hscan & Hk & Hmax & Hfirst)];
      rewrite Hscan in Hres.
    + inversion Hres. subst res. exists covered.
      split; [exact Hinv|]. right. left. exact Hnil.
    + destruct (Z.eqb_spec (new_count dims covered c) 0) as [Hz|Hnz].
      * inversion Hres. subst res. exists covered.
        split; [exact Hinv|]. right. right. intros c' Hc'.
        pose proof (Hmax c' Hc'). pose proof (new_count_nonneg dims covered c').
        lia.
      * apply (IH _ _ _ (loop_inv_step _ _ _ Hinv (nth_error_In _ _ Hk) Hnz)
                  Hres).
  - inversion Hres. subst res. exists covered.
    split; [exact Hinv|]. left. exact Hlt.
Qed.

Lemma filter_length_lt (A : Type) (p q : A -> bool) (l : list A) (x : A) :
  (forall y, q y = true -> p y = true) ->
  In x l -> p x = true -> q x = false ->
  length (filter q l) < length (filter p l).
Proof.
  intros Hqp. induction l as [|a l IH]; intros Hx Hp Hq; [destruct Hx|].
  assert (Hle : length (filter q l) <= length (filter p l)).
  { clear IH Hx. induction l as [|b l IHl]; simpl; [lia|].
    destruct (q b) eqn:Eq.
    - rewrite (Hqp b Eq). simpl. lia.
    - destruct (p b); simpl; lia. }
  simpl. destruct Hx as [->|Hx].
  - rewrite Hp, Hq. simpl. lia.
  - specialize (IH Hx Hp Hq). destruct (q a) eqn:Eq.
    + rewrite (Hqp a Eq). simpl. lia.
    + destruct (p a); simpl; lia.
Qed.

(** A round that selects a tuple leaves fewer requirements uncovered. *)
Lemma uncovered_mark_lt (covered : ReqSet.t) (c : list string) :
  In c (all_combos dims) ->
  new_count dims covered c <> 0%Z ->
  length (uncovered dims (mark dims covered c))
  < length (uncovered dims covered).
Proof.
  intros Hc Hnew.
  destruct (new_count_fresh covered c Hnew) as (ij & Hij & Hm).
  unfold uncovered.
  apply (filter_length_lt _ _ _ _ (projection c ij)).
  - intros y Hy. apply negb_true_iff in Hy. apply negb_true_iff.
    destruct (ReqSet.mem y covered) eqn:E; [|reflexivity].
    assert (E' : ReqSet.mem y (mark dims covered c) = true)
      by (apply mem_mark; left; exact E).
    congruence.
  - apply projection_required; assumption.
  - rewrite Hm. reflexivity.
  - apply negb_false_iff. apply mem_mark. right. exists ij. auto.
Qed.

(** The loop returns once the fuel exceeds the number of uncovered
    requirements. *)
Lemma loop_total (fuel : nat) :
  forall covered selected,
    length (uncovered dims covered) < fuel ->
    exists res, greedy_loop dims fuel covered selected = Some res.
Proof.
  induction fuel as [|fuel IH]; intros covered selected Hfuel; [lia|].
  simpl.
  destruct (ReqSet.proper_subset covered (required dims));
    [|exists selected; reflexivity].
  destruct (scan_spec dims covered (all_combos dims))
    as [[_ Hscan]|(k & c & Hscan & Hk & _)]; rewrite Hscan.
  - exists selected. reflexivity.
  - destruct (Z.eqb_spec (new_count dims covered c) 0) as [_|Hnz].
    + exists selected. reflexivity.
    + apply IH.
      pose proof (uncovered_mark_lt covered c (nth_error_In _ _ Hk) Hnz).
      lia.
Qed.

(** The built-in algorithm returns. *)
Lemma greedy_total : exists res, greedy dims = Some res.
Proof.
  unfold greedy. apply loop_total. unfold uncovered.
  pose proof (filter_length_le
                (fun x => negb (ReqSet.mem x ReqSet.empty)) (required dims)).
  lia.
Qed.

(** Its result is a repetition-free sublist of the product's tuples. *)
Lemma greedy_sound (res : list (list string)) :
  greedy dims = Some res ->
  (forall c, In c res -> In c (product dims)) /\ NoDup res.
Proof.
  intros H. destruct (loop_result _ _ _ _ loop_inv_init H)
    as (covered & (Hsub & Hnd & _) & _).
  split; [exact Hsub|exact Hnd].
Qed.

(** With no empty dimension, its result meets every requirement. *)
Lemma greedy_covers (res : list (list string)) :
  Forall (fun d => d <> []) dims ->
  greedy dims = Some res ->
  forall i j vi vj,
    i < j < length dims ->
    In vi (nth i dims []) -> In vj (nth j dims []) ->
    exists c, In c res /\ item c i = vi /\ item c j = vj.
Proof.
  intros Hne H i j vi vj Hij Hvi Hvj.
  destruct (loop_result _ _ _ _ loop_inv_init H)
    as (covered & (Hsub & _ & Hcov) & Hexit).
  assert (Hreq : In (i, vi, j, vj) (required dims)).
  { apply required_spec. auto. }
  assert (Hmem : ReqSet.mem (i, vi, j, vj) covered = true).
  { destruct Hexit as [Hlt|[Hnil|Hzero]].
    - unfold ReqSet.proper_subset in Hlt.
      assert (Hs : ReqSet.subset covered (required dims) = true).
      { apply subset_spec. intros x Hx. apply mem_In in Hx.
        apply Hcov in Hx. destruct Hx as (c & ij & Hc & Hij' & ->).
        apply projection_required; [apply Hsub; exact Hc|exact Hij']. }
      rewrite Hs in Hlt. simpl in Hlt. apply negb_false_iff in Hlt.
      apply mem_In. apply (proj1 (subset_spec _ _) Hlt). exact Hreq.
    - exfalso. exact (product_nonempty dims Hne Hnil).
    - destruct (product_pair dims i j vi vj Hne Hij Hvi Hvj)
        as (c & Hc & Hci & Hcj).
      pose proof (proj1 (new_count_zero covered c) (Hzero c Hc) (i, j)) as Hp.
      unfold projection in Hp. simpl in Hp. rewrite Hci, Hcj in Hp.
      apply Hp. apply index_pairs_spec. exact Hij. }
  apply Hcov in Hmem. destruct Hmem as (c & [i' j'] & Hc & _ & E).
  unfold projection in E. simpl in E. inversion E. subst.
  exists c. auto.
Qed.

(** A covering selection has at least one tuple per pair of values of
    any two dimensions. *)
Lemma greedy_lower_bound (res : list (list string)) (i j : nat) :
  Forall (fun d => d <> []) dims ->
  greedy dims = Some res ->
  i < j < length dims ->
  NoDup (nth i dims []) -> NoDup (nth j dims []) ->
  length (nth i dims []) * length (nth j dims []) <= length res.
Proof.
  intros Hne H Hij Hi Hj.
  pose (f := fun c : list string => [item c i; item c j]).
  assert (Hincl : incl (product [nth i dims []; nth j dims []]) (map f res)).
  { intros t Ht.
    apply in_product_cons in Ht. destruct Ht as (vi & t1 & -> & Hvi & Ht).
    apply in_product_cons in Ht. destruct Ht as (vj & t2 & -> & Hvj & Ht).
    destruct Ht as [<-|[]].
    destruct (greedy_covers res Hne H i j vi vj Hij Hvi Hvj)
      as (c & Hc & Hci & Hcj).
    apply in_map_iff. exists c. unfold f. rewrite Hci, Hcj. auto. }
  assert (Hnd : NoDup (product [nth i dims []; nth j dims []])).
  { apply NoDup_product. repeat apply Forall_cons; auto. }
  pose proof (NoDup_incl_length Hnd Hincl) as Hlen.
  rewrite product_count, length_map in Hlen. simpl in Hlen. lia.
Qed.

End LoopFacts.

(** ** The loop and the storage order of [covered] *)

Section Extensionality.

Import Pairwise.

Variable dims : list (list string).

Lemma bool_eq_iff (a b : bool) : (a = true <-> b = true) -> a = b.
Proof. destruct a, b; intros [H1 H2]; auto; symmetry; auto. Qed.

Lemma new_count_ext (a b : ReqSet.t) (c : list string) :
  same_members a b -> new_count dims a c = new_count dims b c.
Proof.
  intros H. unfold new_count. f_equal. f_equal.
  apply filter_ext. intros ij. rewrite (H (projection c ij)). reflexivity.
Qed.

Lemma scan_ext (a b : ReqSet.t) (l : list (list string)) :
  same_members a b -> scan dims a l = scan dims b l.
Proof.
  intros H. unfold scan. generalize (@None (list string), (-1)%Z).
  induction l as [|c l IH]; intros best; simpl; [reflexivity|].
  unfold scan_step at 2 4. rewrite (new_count_ext a b c H). apply IH.
Qed.

Lemma proper_subset_ext (a b r : ReqSet.t) :
  same_members a b -> ReqSet.proper_subset a r = ReqSet.proper_subset b r.
Proof.
  intros H. unfold ReqSet.proper_subset.
  assert (Hin : forall x, In x a <-> In x b).
  { intros x. rewrite <- !mem_In, (H x). reflexivity. }
  f_equal; [|f_equal]; apply bool_eq_iff; rewrite !subset_spec.
  - split; intros Hs x Hx; apply Hs; apply Hin; exact Hx.
  - split; intros Hs x Hx; apply Hin; apply Hs; exact Hx.
Qed.

Lemma mark_ext (a b : ReqSet.t) (c : list string) :
  same_members a b -> same_members (mark dims a c) (mark dims b c).
Proof.
  intros H x. apply bool_eq_iff. rewrite !mem_mark, (H x). reflexivity.
Qed.

(** The loop reads [covered] only through membership tests. *)
Lemma greedy_loop_ext (fuel : nat) :
  forall a b selected,
    same_members a b ->
    greedy_loop dims fuel a selected = greedy_loop dims fuel b selected.
Proof.
  induction fuel as [|fuel IH]; intros a b selected H; simpl; [reflexivity|].
  rewrite (proper_subset_ext a b _ H), (scan_ext a b _ H).
  destruct (ReqSet.proper_subset b (required dims)); [|reflexivity].
  destruct (scan dims b (all_combos dims)) as [[c|] m]; [|reflexivity].
  destruct (m =? 0)%Z; [reflexivity|].
  apply IH. apply mark_ext. exact H.
Qed.

End Extensionality.

(** ** The pairwise strategy *)

Lemma dimensions_length (T : tables) : length (dimensions T) = 3.
Proof. reflexivity. Qed.

Lemma shipped_dimensions_nonempty :
  Forall (fun d : list string => d <> []) (dimensions shipped).
Proof. repeat apply Forall_cons; try apply Forall_nil; discriminate. Qed.

Lemma shipped_dimensions_NoDup : Forall (@NoDup string) (dimensions shipped).
Proof.
  repeat apply Forall_cons; try apply Forall_nil;
    apply distinct_NoDup; vm_compute; reflexivity.
Qed.

(** A component read by position, for a tuple of the product. *)
Lemma item_nth_error (dims : list (list string)) (c : list string) (i : nat) :
  In c (product dims) -> i < length dims ->
  nth_error c i = Some (Pairwise.item c i).
Proof.
  intros Hc Hi. apply nth_error_nth'. rewrite (product_length _ _ Hc). exact Hi.
Qed.

(** C1: on the script's tables the built-in greedy algorithm returns a
    list with complete 2-way coverage: for any two distinct dimensions
    [i] and [j] among fault type (0), target tier (1) and severity (2),
    and any value [v] of dimension [i] and [w] of dimension [j], some
    returned combination has [v] at position [i] and [w] at position
    [j]. *)
Theorem pairwise_complete_coverage :
  exists selected,
    pairwise_combinations shipped None = Some selected
    /\ forall i j v w,
         i < 3 -> j < 3 -> i <> j ->
         In v (nth i (dimensions shipped) []) ->
         In w (nth j (dimensions shipped) []) ->
         exists c, In c selected
                   /\ nth_error c i = Some v /\ nth_error c j = Some w.
Proof.
  destruct (greedy_total (dimensions shipped)) as [selected Hsel].
  exists selected. split; [exact Hsel|].
  destruct (greedy_sound _ _ Hsel) as [Hsub _].
  assert (Hlt : forall i j v w,
             i < j < 3 ->
             In v (nth i (dimensions shipped) []) ->
             In w (nth j (dimensions shipped) []) ->
             exists c, In c selected
                       /\ nth_error c i = Some v /\ nth_error c j = Some w).
  { intros i j v w Hij Hv Hw.
    destruct (greedy_covers _ _ shipped_dimensions_nonempty Hsel
                i j v w Hij Hv Hw) as (c & Hc & Hci & Hcj).
    exists c. split; [exact Hc|].
    rewrite <- Hci, <- Hcj.
    split; apply (item_nth_error (dimensions shipped)); auto;
      rewrite dimensions_length; lia. }
  intros i j v w Hi Hj Hne Hv Hw.
  destruct (Nat.lt_trichotomy i j) as [Hij|[Hij|Hij]]; [|contradiction|].
  - apply Hlt; auto.
  - destruct (Hlt j i w v (conj Hij Hi) Hw Hv) as (c & Hc & Hcj & Hci).
    exists c. auto.
Qed.

(** C9: whatever the tables, the built-in greedy algorithm returns a
    list, every combination of the list is a tuple of the full
    enumeration, and no combination occurs twice in it. *)
Theorem pairwise_selection_sound (T : tables) :
  exists selected,
    pairwise_combinations T None = Some selected
    /\ (forall c, In c selected -> In c (full_combinations T))
    /\ NoDup selected.
Proof.
  destruct (greedy_total (dimensions T)) as [selected Hsel].
  exists selected. split; [exact Hsel|].
  exact (greedy_sound _ _ Hsel).
Qed.

(** C5: on the script's tables the list the greedy algorithm returns
    is no longer than the full enumeration, which has 264 tuples, and
    no shorter than the largest product of two dimension sizes,
    max (11 * 8, 11 * 3, 8 * 3) = 88. *)
Theorem pairwise_length_bounds :
  let fts := keys (FAULT_DEFINITIONS shipped) in
  let tts := keys (TARGET_TIERS shipped) in
  let svs := SEVERITIES shipped in
  exists selected,
    pairwise_combinations shipped None = Some selected
    /\ length selected <= length (full_combinations shipped)
    /\ length (full_combinations shipped) = 264
    /\ Nat.max (length fts * length tts)
               (Nat.max (length fts * length svs) (length tts * length svs))
       <= length selected
    /\ Nat.max (length fts * length tts)
               (Nat.max (length fts * length svs) (length tts * length svs))
       = 88.
Proof.
  intros fts tts svs.
  destruct (greedy_total (dimensions shipped)) as [selected Hsel].
  exists selected. split; [exact Hsel|].
  destruct (greedy_sound _ _ Hsel) as [Hsub Hnd].
  split; [apply NoDup_incl_length; [exact Hnd|exact Hsub]|].
  split; [rewrite full_combinations_count; reflexivity|].
  split; [|reflexivity].
  pose proof shipped_dimensions_NoDup as HND.
  inversion HND as [|? ? Hf HND1]; subst.
  inversion HND1 as [|? ? Ht HND2]; subst.
  inversion HND2 as [|? ? Hs _]; subst.
  assert (H01 : length fts * length tts <= length selected).
  { exact (greedy_lower_bound _ _ 0 1 shipped_dimensions_nonempty Hsel
             ltac:(simpl; lia) Hf Ht). }
  assert (H02 : length fts * length svs <= length selected).
  { exact (greedy_lower_bound _ _ 0 2 shipped_dimensions_nonempty Hsel
             ltac:(simpl; lia) Hf Hs). }
  assert (H12 : length tts * length svs <= length selected).
  { exact (greedy_lower_bound _ _ 1 2 shipped_dimensions_nonempty Hsel
             ltac:(simpl; lia) Ht Hs). }
  lia.
Qed.

(** One round of the loop: when the loop condition holds and the full
    enumeration is not empty, the scan finds the one tuple [first_max]
    names, and the loop either ends (the tuple adds nothing) or goes on
    with the tuple appended and its projections marked.  The round
    reads [covered] through membership only. *)
Lemma greedy_round_step (T : tables) (fuel : nat) (covered : ReqSet.t)
  (selected : list (list string)) :
  ReqSet.proper_subset covered (Pairwise.required (dimensions T)) = true ->
  full_combinations T <> [] ->
  exists k c,
    Pairwise.first_max (dimensions T) covered (full_combinations T) k c
    /\ (forall k' c',
          Pairwise.first_max (dimensions T) covered (full_combinations T) k' c' ->
          k' = k /\ c' = c)
    /\ Pairwise.greedy_loop (dimensions T) (S fuel) covered selected
       = (if (Pairwise.new_count (dimensions T) covered c =? 0)%Z
          then Some selected
          else Pairwise.greedy_loop (dimensions T) fuel
                 (Pairwise.mark (dimensions T) covered c) (selected ++ [c]))
    /\ (forall covered',
          Pairwise.same_members covered covered' ->
          Pairwise.greedy_loop (dimensions T) (S fuel) covered' selected
          = Pairwise.greedy_loop (dimensions T) (S fuel) covered selected).
Proof.
  intros Hlt Hne.
  destruct (scan_spec (dimensions T) covered (full_combinations T))
    as [[Hnil _]|(k & c & Hscan & Hfm)]; [contradiction|].
  exists k, c. split; [exact Hfm|]. split; [|split].
  - intros k' c' Hfm'.
    exact (first_max_unique (dimensions T) covered _ _ _ _ _ Hfm' Hfm).
  - simpl. rewrite Hlt.
    change (Pairwise.all_combos (dimensions T)) with (full_combinations T).
    rewrite Hscan. reflexivity.
  - intros covered' Hsame. symmetry. apply greedy_loop_ext. exact Hsame.
Qed.

(** ** Tables that break the consistency conditions *)

(** The script validates nothing: with a target tier that has no
    selectors the full run assembles and writes all 264 files and
    raises no exception; with a fault that lacks the parameter set of a
    declared severity the run writes the first 26 files and then stops
    on a [KeyError]; with an empty dimension the run writes nothing
    and raises nothing. *)
Lemma unchecked_tables_counterexample :
  (exists tr files,
     dict_find (TARGET_TIERS tier_without_selectors) "rabbitmq" = Some tr
     /\ selectors tr = []
     /\ length (full_combinations tier_without_selectors) = 264
     /\ main tier_without_selectors false None = Some (files, None)
     /\ length files = 264)
  /\ (exists fd files,
        dict_find (FAULT_DEFINITIONS fault_without_severe) "latency" = Some fd
        /\ In "severe" (SEVERITIES fault_without_severe)
        /\ dict_find (levels fd) "severe" = None
        /\ length (full_combinations fault_without_severe) = 264
        /\ main fault_without_severe false None
           = Some (files, Some (KeyError "severe"))
        /\ length files = 26)
  /\ (SEVERITIES no_severities = []
      /\ main no_severities false None = Some ([], None)
      /\ main no_severities true None = Some ([], None)).
Proof.
  split; [|split].
  - assert (H : match main tier_without_selectors false None with
                | Some (files, None) => Nat.eqb (length files) 264
                | _ => false
                end = true) by (vm_compute; reflexivity).
    destruct (main tier_without_selectors false None) as [[files [e|]]|];
      try discriminate.
    eexists. exists files.
    split; [vm_compute; reflexivity|]. split; [reflexivity|].
    split; [vm_compute; reflexivity|]. split; [reflexivity|].
    apply Nat.eqb_eq. exact H.
  - assert (H : match main fault_without_severe false None with
                | Some (files, Some (KeyError k)) =>
                    Nat.eqb (length files) 26 && String.eqb k "severe"
                | _ => false
                end = true) by (vm_compute; reflexivity).
    destruct (main fault_without_severe false None) as [[files [[k|]|]]|];
      try discriminate.
    apply andb_true_iff in H. destruct H as [Hl Hk].
    apply String.eqb_eq in Hk. subst k.
    eexists. exists files.
    split; [vm_compute; reflexivity|]. split; [simpl; tauto|].
    split; [reflexivity|]. split; [vm_compute; reflexivity|].
    split; [reflexivity|]. apply Nat.eqb_eq. exact Hl.
  - split; [reflexivity|]. split; vm_compute; reflexivity.
Qed.

Section Unchecked.

Variable T : tables.

Lemma greedy_empty_dimension :
  In [] (dimensions T) -> Pairwise.greedy (dimensions T) = Some [].
Proof.
  intros H. unfold Pairwise.greedy. simpl.
  destruct (ReqSet.proper_subset ReqSet.empty
              (Pairwise.required (dimensions T))); [|reflexivity].
  unfold Pairwise.all_combos. rewrite (product_empty_pool _ H). reflexivity.
Qed.

Lemma build_scenario_no_selectors (ft tgt sv : string) (fd : fault_def)
  (tr : tier) (tm : timing) (lv : dict pyval) (slugs labels : dict string)
  (slug label : string) :
  dict_find (FAULT_DEFINITIONS T) ft = Some fd ->
  dict_find (TARGET_TIERS T) tgt = Some tr ->
  dict_find (TIMING T) sv = Some tm ->
  dict_find (levels fd) sv = Some lv ->
  dict_find (SEVERITY_SLUGS T) ft = Some slugs ->
  dict_find slugs sv = Some slug ->
  dict_find (SEVERITY_LABELS T) ft = Some labels ->
  dict_find labels sv = Some label ->
  selectors tr = [] ->
  exists r, build_scenario T ft tgt sv = inr r
            /\ targets (s_spec r) = [] /\ faults (s_spec r) = [].
Proof.
  intros Hf Ht Hs Hl Hsl Hslug Hla Hlabel Hsel.
  unfold build_scenario, scenario_description.
  rewrite (getitem_found _ _ _ Hf), (getitem_found _ _ _ Ht),
    (getitem_found _ _ _ Hs).
  simpl. rewrite (getitem_found _ _ _ Hl). simpl. rewrite Hsel. simpl.
  rewrite (getitem_found _ _ _ Hsl). simpl.
  rewrite (getitem_found _ _ _ Hslug). simpl.
  rewrite (getitem_found _ _ _ Hla). simpl.
  rewrite (getitem_found _ _ _ Hlabel). simpl.
  eexists. split; [reflexivity|]. simpl. auto.
Qed.

End Unchecked.

(** C8, as the code has it: the script never raises a configuration
    error.  For any tables: when a dimension is empty, both strategies
    return the empty list and the run writes nothing and raises
    nothing; when a target tier has no selectors and the other lookups
    of a combination on that tier succeed, [build_scenario] returns a
    record whose target list and fault list are empty; when a fault
    lacks the parameter set of a severity that has a timing profile,
    [build_scenario] raises [KeyError] with that severity, at the
    moment such a combination is assembled.  The last two are stated
    for a severity that is not named [type], [category] or [label]. *)
Theorem tables_are_not_validated (T : tables) :
  (In [] (dimensions T) ->
     full_combinations T = []
     /\ pairwise_combinations T None = Some []
     /\ main T false None = Some ([], None)
     /\ main T true None = Some ([], None))
  /\ (forall ft tgt sv fd tr tm lv slugs labels slug label,
        reserved_key sv = false ->
        dict_find (FAULT_DEFINITIONS T) ft = Some fd ->
        dict_find (TARGET_TIERS T) tgt = Some tr ->
        dict_find (TIMING T) sv = Some tm ->
        dict_find (levels fd) sv = Some lv ->
        dict_find (SEVERITY_SLUGS T) ft = Some slugs ->
        dict_find slugs sv = Some slug ->
        dict_find (SEVERITY_LABELS T) ft = Some labels ->
        dict_find labels sv = Some label ->
        selectors tr = [] ->
        exists r, build_scenario T ft tgt sv = inr r
                  /\ targets (s_spec r) = [] /\ faults (s_spec r) = [])
  /\ (forall ft tgt sv fd tr tm,
        reserved_key sv = false ->
        dict_find (FAULT_DEFINITIONS T) ft = Some fd ->
        dict_find (TARGET_TIERS T) tgt = Some tr ->
        dict_find (TIMING T) sv = Some tm ->
        dict_find (levels fd) sv = None ->
        build_scenario T ft tgt sv = inl (KeyError sv)).
Proof.
  split; [|split].
  - intros H.
    assert (Hfull : full_combinations T = [])
      by exact (product_empty_pool _ H).
    assert (Hpair : pairwise_combinations T None = Some [])
      by exact (greedy_empty_dimension T H).
    split; [exact Hfull|]. split; [exact Hpair|].
    unfold main. rewrite Hfull, Hpair. split; reflexivity.
  - intros ft tgt sv fd tr tm lv slugs labels slug label _.
    apply build_scenario_no_selectors.
  - intros ft tgt sv fd tr tm _. apply build_scenario_no_level.
Qed.

(** ** Runs on concrete tables *)

(** Three dimensions of two values: four rounds, each taking the first
    tuple with the largest count (3 every time). *)
Example greedy_two_by_two_by_two :
  Pairwise.greedy [["a"; "b"]; ["x"; "y"]; ["0"; "1"]]
  = Some [["a"; "x"; "0"]; ["a"; "y"; "1"]; ["b"; "x"; "1"]; ["b"; "y"; "0"]].
Proof. vm_compute. reflexivity. Qed.

(** A tie on the count is won by the earlier tuple: after the first
    round of the run above, [a x 1] and [a y 0] both add 2 and [a y 1],
    later in the enumeration, adds 3. *)
Example scan_second_round :
  let dims := [["a"; "b"]; ["x"; "y"]; ["0"; "1"]] in
  let covered := Pairwise.mark dims ReqSet.empty ["a"; "x"; "0"] in
  map (Pairwise.new_count dims covered) (Pairwise.all_combos dims)
  = [0; 2; 2; 3; 2; 3; 3; 3]%Z
  /\ Pairwise.scan dims covered (Pairwise.all_combos dims)
     = (Some ["a"; "y"; "1"], 3%Z).
Proof. vm_compute. split; reflexivity. Qed.

(** On the script's tables the greedy selection has 88 combinations and
    starts with these four. *)
Example shipped_pairwise_run :
  option_map (fun l => (length l, firstn 4 l))
             (pairwise_combinations shipped None)
  = Some (88, [["packet_loss"; "validator1_heimdall"; "mild"];
               ["packet_loss"; "validator1_bor"; "moderate"];
               ["packet_loss"; "validator1_both"; "severe"];
               ["latency"; "validator1_heimdall"; "moderate"]]).
Proof. vm_compute. reflexivity. Qed.

(** The first and the last tuples of the full enumeration. *)
Example full_combinations_ends :
  firstn 4 (full_combinations shipped)
  = [["packet_loss"; "validator1_heimdall"; "mild"];
     ["packet_loss"; "validator1_heimdall"; "moderate"];
     ["packet_loss"; "validator1_heimdall"; "severe"];
     ["packet_loss"; "validator1_bor"; "mild"]]
  /\ nth_error (full_combinations shipped) 263
     = Some ["disk_io"; "rpc_nodes"; "severe"].
Proof. vm_compute. split; reflexivity. Qed.

(** The names quoted in the script's header. *)
Example documented_names :
  assembled_name shipped ["packet_loss"; "validator1_heimdall"; "moderate"]
  = inr "gen-packet-loss-40pct-validator1-heimdall"
  /\ assembled_name shipped ["container_restart"; "all_both"; "severe"]
     = inr "gen-container-restart-immediate-all-both"
  /\ assembled_name shipped ["memory_pressure"; "rabbitmq"; "severe"]
     = inr "gen-memory-pressure-1gb-rabbitmq".
Proof. vm_compute. repeat split; reflexivity. Qed.

(** Out-of-table values. *)
Example build_scenario_unknown_values :
  build_scenario shipped "packet_los" "rpc_nodes" "mild"
  = inl (KeyError "packet_los")
  /\ build_scenario shipped "packet_loss" "rpc" "extreme"
     = inl (KeyError "rpc")
  /\ build_scenario shipped "packet_loss" "rpc_nodes" "type"
     = inl (KeyError "type").
Proof. vm_compute. repeat split; reflexivity. Qed.

(** * Further properties of the code *)

(** ** Dict updates and copies *)

Section DictFacts.

Context {V : Type}.

Lemma dict_find_set_same (d : dict V) (k : string) (v : V) :
  dict_find (dict_set d k v) k = Some v.
Proof.
  induction d as [|[k' v'] d IH]; simpl.
  - rewrite String.eqb_refl. reflexivity.
  - destruct (String.eqb k k') eqn:E; simpl; rewrite E; [reflexivity|exact IH].
Qed.

Lemma dict_find_set_other (d : dict V) (k k' : string) (v : V) :
  k' <> k -> dict_find (dict_set d k v) k' = dict_find d k'.
Proof.
  intros Hne. induction d as [|[k0 v0] d IH]; simpl.
  - destruct (String.eqb_spec k' k); [contradiction|reflexivity].
  - destruct (String.eqb_spec k k0) as [->|Hk]; simpl.
    + destruct (String.eqb_spec k' k0); [contradiction|reflexivity].
    + destruct (String.eqb k' k0); [reflexivity|exact IH].
Qed.

Lemma dict_set_fresh (d : dict V) (k : string) (v : V) :
  ~ In k (keys d) -> dict_set d k v = (d ++ [(k, v)])%list.
Proof.
  induction d as [|[k' v'] d IH]; simpl; intros H; [reflexivity|].
  destruct (String.eqb_spec k k') as [->|_]; [exfalso; auto|].
  rewrite IH by auto. reflexivity.
Qed.

Lemma dict_copy_from (d acc : dict V) :
  NoDup (keys (acc ++ d)%list) ->
  fold_left (fun a kv => dict_set a (fst kv) (snd kv)) d acc = (acc ++ d)%list.
Proof.
  revert acc. induction d as [|[k v] d IH]; intros acc H; simpl.
  - rewrite app_nil_r. reflexivity.
  - assert (Hk : ~ In k (keys acc)).
    { unfold keys in *. rewrite map_app in H. simpl in H.
      apply NoDup_remove_2 in H. intros Hin. apply H.
      apply in_or_app. left. exact Hin. }
    rewrite (dict_set_fresh acc k v Hk).
    replace (acc ++ (k, v) :: d)%list with ((acc ++ [(k, v)]) ++ d)%list
      by (rewrite <- app_assoc; reflexivity).
    apply IH. rewrite <- app_assoc. exact H.
Qed.

(** Copying a dict, whose keys are distinct, gives the same items in the
    same order. *)
Lemma dict_copy_id (d : dict V) : NoDup (keys d) -> dict_copy d = d.
Proof. intros H. unfold dict_copy. apply (dict_copy_from d []). exact H. Qed.

End DictFacts.

Section MapMFacts.

Context {A B : Type}.

Lemma mapM_total (f : A -> result B) (g : A -> B) (l : list A) :
  (forall x, f x = inr (g x)) -> mapM f l = inr (map g l).
Proof.
  intros H. induction l as [|x l IH]; simpl; [reflexivity|].
  rewrite H, IH. reflexivity.
Qed.

Lemma mapM_const_error (f : A -> result B) (e : exn) (l : list A) :
  (forall x, f x = inl e) ->
  mapM f l = match l with [] => inr [] | _ :: _ => inl e end.
Proof. intros H. destruct l as [|x l]; simpl; [reflexivity|]. rewrite H. reflexivity. Qed.

Lemma mapM_length (f : A -> result B) (l : list A) (ys : list B) :
  mapM f l = inr ys -> length ys = length l.
Proof.
  intros H. apply mapM_inr in H. symmetry. exact (Forall2_length H).
Qed.

Lemma mapM_app (f : A -> result B) (l1 l2 : list A) (ys1 ys2 : list B) :
  mapM f l1 = inr ys1 -> mapM f l2 = inr ys2 ->
  mapM f (l1 ++ l2)%list = inr (ys1 ++ ys2)%list.
Proof.
  revert ys1. induction l1 as [|x l1 IH]; intros ys1 H1 H2; simpl in *.
  - inversion H1. exact H2.
  - destruct (f x) as [e|y]; simpl in *; [discriminate|].
    destruct (mapM f l1) as [e|ys]; simpl in *; [discriminate|].
    inversion H1. subst. rewrite (IH ys eq_refl H2). reflexivity.
Qed.

End MapMFacts.

(** ** Assembly, for any tables *)

Section AssemblyFacts.

Variable T : tables.

Lemma nested_lookup_found (V : Type) (D : dict (dict V)) (a b : string) (v : V) :
  (d <- D.[a] ;; d.[b]) = inr v <->
  exists d, dict_find D a = Some d /\ dict_find d b = Some v.
Proof.
  unfold getitem. split.
  - destruct (dict_find D a) as [d|]; simpl; [|discriminate].
    destruct (dict_find d b) as [v'|] eqn:E; simpl; [|discriminate].
    intros H. inversion H. subst. exists d. auto.
  - intros (d & -> & Hd). simpl. rewrite Hd. reflexivity.
Qed.

Lemma nested_lookup_error (V : Type) (D : dict (dict V)) (a b : string) (e : exn) :
  (d <- D.[a] ;; d.[b]) = inl e -> e = KeyError a \/ e = KeyError b.
Proof.
  unfold getitem. destruct (dict_find D a) as [d|]; simpl.
  - destruct (dict_find d b); simpl; intros H; inversion H. auto.
  - intros H. inversion H. auto.
Qed.

(** With every entry present the builder returns the assembled record. *)
Lemma build_scenario_found (ft tgt sv : string) (fd : fault_def) (tr : tier)
  (tm : timing) (lv : dict pyval) (slug label : string) :
  assembly_inputs T ft tgt sv fd tr tm lv slug label ->
  build_scenario T ft tgt sv = inr (assembled T ft tgt fd tr tm lv slug label).
Proof.
  intros (Hf & Ht & Hs & Hl & Hslug & Hlabel).
  apply nested_lookup_found in Hslug. destruct Hslug as (slugs & Hsl & Hslug).
  apply nested_lookup_found in Hlabel. destruct Hlabel as (labels & Hla & Hlabel).
  unfold build_scenario, scenario_description.
  rewrite (getitem_found _ _ _ Hf), (getitem_found _ _ _ Ht),
    (getitem_found _ _ _ Hs).
  simpl. rewrite (getitem_found _ _ _ Hl). simpl.
  rewrite (mapM_total _
             (fun s => {| f_phase := hyphenate ft ++ "-" ++ alias s;
                          f_description := label ++ " applied to " ++ alias s;
                          f_target := alias s;
                          f_type := fd_type fd;
                          f_params := dict_copy (dict_copy lv) |})).
  - simpl. rewrite (getitem_found _ _ _ Hsl). simpl.
    rewrite (getitem_found _ _ _ Hslug). simpl.
    rewrite (getitem_found _ _ _ Hla). simpl.
    rewrite (getitem_found _ _ _ Hlabel). simpl. reflexivity.
  - intros s. rewrite (getitem_found _ _ _ Hla). simpl.
    rewrite (getitem_found _ _ _ Hlabel). reflexivity.
Qed.

Lemma bind_nested (V B : Type) (D : dict (dict V)) (a b : string)
  (k : V -> result B) :
  (d <- D.[a] ;; v <- d.[b] ;; k v) = (v <- (d <- D.[a] ;; d.[b]) ;; k v).
Proof. unfold getitem. destruct (dict_find D a); reflexivity. Qed.

(** Either every entry is present, or the builder raises [KeyError]
    with the fault type, the target tier or the severity. *)
Lemma build_scenario_cases (ft tgt sv : string) :
  (exists fd tr tm lv slug label,
     assembly_inputs T ft tgt sv fd tr tm lv slug label)
  \/ (exists k, (k = ft \/ k = tgt \/ k = sv)
                /\ build_scenario T ft tgt sv = inl (KeyError k)).
Proof.
  destruct (dict_find (FAULT_DEFINITIONS T) ft) as [fd|] eqn:Hf;
    [|right; exists ft; split; [auto|apply build_scenario_no_fault; exact Hf]].
  destruct (dict_find (TARGET_TIERS T) tgt) as [tr|] eqn:Ht;
    [|right; exists tgt; split;
      [auto|apply (build_scenario_no_tier T ft tgt sv fd); assumption]].
  destruct (dict_find (TIMING T) sv) as [tm|] eqn:Hs;
    [|right; exists sv; split;
      [auto|apply (build_scenario_no_timing T ft tgt sv fd tr); assumption]].
  destruct (dict_find (levels fd) sv) as [lv|] eqn:Hl;
    [|right; exists sv; split;
      [auto|apply (build_scenario_no_level T ft tgt sv fd tr tm); assumption]].
  destruct (slugs <- (SEVERITY_SLUGS T).[ft] ;; slugs.[sv]) as [es|slug] eqn:Hslug;
  destruct (labels <- (SEVERITY_LABELS T).[ft] ;; labels.[sv])
    as [el|label] eqn:Hlabel.
  4: { left. exists fd, tr, tm, lv, slug, label. repeat split; assumption. }
  all: right.
  all: unfold build_scenario, scenario_description.
  all: rewrite (getitem_found _ _ _ Hf), (getitem_found _ _ _ Ht),
         (getitem_found _ _ _ Hs); simpl.
  all: rewrite (getitem_found _ _ _ Hl); simpl.
  - (* neither the slug nor the label *)
    pose proof (nested_lookup_error _ _ _ _ _ Hslug) as Es.
    pose proof (nested_lookup_error _ _ _ _ _ Hlabel) as El.
    rewrite (mapM_const_error _ el)
      by (intros s; rewrite bind_nested, Hlabel; reflexivity).
    destruct (selectors tr); simpl.
    + rewrite (bind_nested _ _ (SEVERITY_SLUGS T)), Hslug. simpl.
      destruct Es as [-> | ->]; [exists ft|exists sv]; auto.
    + destruct El as [-> | ->]; [exists ft|exists sv]; auto.
  - (* the label, not the slug *)
    pose proof (nested_lookup_error _ _ _ _ _ Hslug) as Es.
    rewrite (mapM_total _
               (fun s => {| f_phase := hyphenate ft ++ "-" ++ alias s;
                            f_description := label ++ " applied to " ++ alias s;
                            f_target := alias s;
                            f_type := fd_type fd;
                            f_params := dict_copy (dict_copy lv) |}))
      by (intros s; rewrite bind_nested, Hlabel; reflexivity).
    simpl. rewrite (bind_nested _ _ (SEVERITY_SLUGS T)), Hslug. simpl.
    destruct Es as [-> | ->]; [exists ft|exists sv]; auto.
  - (* the slug, not the label *)
    pose proof (nested_lookup_error _ _ _ _ _ Hlabel) as El.
    rewrite (mapM_const_error _ el)
      by (intros s; rewrite bind_nested, Hlabel; reflexivity).
    destruct (selectors tr); simpl.
    + rewrite (bind_nested _ _ (SEVERITY_SLUGS T)), Hslug. simpl.
      rewrite (bind_nested _ _ (SEVERITY_LABELS T)), Hlabel. simpl.
      destruct El as [-> | ->]; [exists ft|exists sv]; auto.
    + destruct El as [-> | ->]; [exists ft|exists sv]; auto.
Qed.

(** A returned record is the assembled one. *)
Lemma build_scenario_inv (ft tgt sv : string) (r : scenario) :
  build_scenario T ft tgt sv = inr r ->
  exists fd tr tm lv slug label,
    assembly_inputs T ft tgt sv fd tr tm lv slug label
    /\ r = assembled T ft tgt fd tr tm lv slug label.
Proof.
  intros H.
  destruct (build_scenario_cases ft tgt sv)
    as [(fd & tr & tm & lv & slug & label & Hin)|(k & _ & Hk)];
    [|congruence].
  exists fd, tr, tm, lv, slug, label. split; [exact Hin|].
  rewrite (build_scenario_found _ _ _ _ _ _ _ _ _ Hin) in H.
  inversion H. reflexivity.
Qed.

Lemma print_list_row_found (ft tgt sv : string) (fd : fault_def) (tr : tier)
  (tm : timing) (lv : dict pyval) (slug label : string) :
  assembly_inputs T ft tgt sv fd tr tm lv slug label ->
  print_list_row T ft tgt sv
  = inr {| row_name := "gen-" ++ hyphenate ft ++ "-" ++ slug
                       ++ "-" ++ hyphenate tgt;
           row_desc := label ++ " on " ++ tier_label tr;
           row_category := fd_category fd;
           row_dur := duration tm |}.
Proof.
  intros (Hf & Ht & Hs & _ & Hslug & Hlabel).
  unfold print_list_row.
  rewrite (bind_nested _ _ (SEVERITY_SLUGS T)), Hslug. simpl.
  rewrite (bind_nested _ _ (SEVERITY_LABELS T)), Hlabel. simpl.
  rewrite (getitem_found _ _ _ Ht). simpl.
  rewrite (getitem_found _ _ _ Hf). simpl.
  rewrite (getitem_found _ _ _ Hs). reflexivity.
Qed.

End AssemblyFacts.

Lemma string_app_assoc (a b c : string) : (a ++ b) ++ c = a ++ (b ++ c).
Proof. induction a as [|x a IH]; simpl; [reflexivity|]. rewrite IH. reflexivity. Qed.

Lemma no_underscore_app (a b : string) :
  no_underscore (a ++ b) = no_underscore a && no_underscore b.
Proof.
  induction a as [|c a IH]; simpl; [reflexivity|].
  rewrite IH, andb_assoc. reflexivity.
Qed.

Lemma no_underscore_hyphenate (s : string) : no_underscore (hyphenate s) = true.
Proof.
  unfold hyphenate. induction s as [|c s IH]; simpl; [reflexivity|].
  rewrite IH, andb_true_r.
  destruct (Ascii.eqb c "_") eqn:E; [reflexivity|]. rewrite E. reflexivity.
Qed.

(** X1: for any tables and a severity that is not named [type],
    [category] or [label], [build_scenario] returns a record exactly
    when the combination has a fault definition, a tier, a timing
    profile, a parameter set for the severity under the fault, a slug
    and a label; whatever it raises is a [KeyError] carrying the fault
    type, the target tier or the severity it was called with. *)
Theorem build_scenario_succeeds_iff (T : tables) (ft tgt sv : string) :
  reserved_key sv = false ->
  ((exists r, build_scenario T ft tgt sv = inr r) <->
   (exists fd tr tm lv slug label,
      assembly_inputs T ft tgt sv fd tr tm lv slug label))
  /\ (forall e, build_scenario T ft tgt sv = inl e ->
        e = KeyError ft \/ e = KeyError tgt \/ e = KeyError sv).
Proof.
  intros _. split; [split|].
  - intros [r Hr].
    destruct (build_scenario_inv T ft tgt sv r Hr)
      as (fd & tr & tm & lv & slug & label & Hin & _).
    exists fd, tr, tm, lv, slug, label. exact Hin.
  - intros (fd & tr & tm & lv & slug & label & Hin).
    eexists. apply (build_scenario_found T _ _ _ _ _ _ _ _ _ Hin).
  - intros e He.
    destruct (build_scenario_cases T ft tgt sv)
      as [(fd & tr & tm & lv & slug & label & Hin)|(k & Hk & Hb)].
    + rewrite (build_scenario_found T _ _ _ _ _ _ _ _ _ Hin) in He.
      discriminate.
    + rewrite Hb in He. inversion He.
      destruct Hk as [-> | [-> | ->]]; auto.
Qed.

Lemma build_scenario_succeeds_iff_witness :
  ((exists r, build_scenario fault_without_severe "latency" "rabbitmq" "severe"
              = inr r) <->
   (exists fd tr tm lv slug label,
      assembly_inputs fault_without_severe "latency" "rabbitmq" "severe"
                      fd tr tm lv slug label))
  /\ (forall e,
        build_scenario fault_without_severe "latency" "rabbitmq" "severe"
        = inl e ->
        e = KeyError "latency" \/ e = KeyError "rabbitmq"
        \/ e = KeyError "severe").
Proof.
  apply (build_scenario_succeeds_iff
           fault_without_severe "latency" "rabbitmq" "severe").
  reflexivity.
Defined.

(** X2: in a returned record the targets and the fault entries follow
    the tier's selectors one for one and in order: the same aliases,
    the selectors' patterns, and every fault entry has the fault's
    runner type, a phase made of the hyphenated fault type and its
    target alias, and, the parameter set having distinct keys, exactly
    the parameter set of the severity. *)
Theorem build_scenario_faults_follow_selectors (T : tables)
  (ft tgt sv : string) (r : scenario) :
  build_scenario T ft tgt sv = inr r ->
  exists fd tr lv,
    dict_find (FAULT_DEFINITIONS T) ft = Some fd
    /\ dict_find (TARGET_TIERS T) tgt = Some tr
    /\ dict_find (levels fd) sv = Some lv
    /\ map t_alias (targets (s_spec r)) = map alias (selectors tr)
    /\ map sel_pattern (targets (s_spec r)) = map pattern (selectors tr)
    /\ map f_target (faults (s_spec r)) = map alias (selectors tr)
    /\ Forall (fun f =>
                 f_type f = fd_type fd
                 /\ f_phase f = hyphenate ft ++ "-" ++ f_target f
                 /\ (NoDup (keys lv) -> f_params f = lv))
              (faults (s_spec r)).
Proof.
  intros H.
  destruct (build_scenario_inv T ft tgt sv r H)
    as (fd & tr & tm & lv & slug & label & (Hf & Ht & _ & Hl & _) & ->).
  exists fd, tr, lv. split; [exact Hf|]. split; [exact Ht|].
  split; [exact Hl|]. simpl. rewrite !map_map. simpl.
  split; [reflexivity|]. split; [reflexivity|]. split; [reflexivity|].
  apply Forall_forall. intros f Hin. apply in_map_iff in Hin.
  destruct Hin as (s & <- & _). simpl.
  split; [reflexivity|]. split; [reflexivity|].
  intros Hnd. rewrite (dict_copy_id lv Hnd). apply dict_copy_id. exact Hnd.
Qed.

Lemma build_scenario_faults_follow_selectors_witness :
  exists r,
    build_scenario shipped "container_pause" "all_both" "severe" = inr r
    /\ exists fd tr lv,
         dict_find (FAULT_DEFINITIONS shipped) "container_pause" = Some fd
         /\ dict_find (TARGET_TIERS shipped) "all_both" = Some tr
         /\ dict_find (levels fd) "severe" = Some lv
         /\ map t_alias (targets (s_spec r)) = map alias (selectors tr)
         /\ map sel_pattern (targets (s_spec r)) = map pattern (selectors tr)
         /\ map f_target (faults (s_spec r)) = map alias (selectors tr)
         /\ Forall (fun f =>
                      f_type f = fd_type fd
                      /\ f_phase f
                         = hyphenate "container_pause" ++ "-" ++ f_target f
                      /\ (NoDup (keys lv) -> f_params f = lv))
                   (faults (s_spec r)).
Proof.
  eexists. split; [vm_compute; reflexivity|].
  apply (build_scenario_faults_follow_selectors
           shipped "container_pause" "all_both" "severe").
  vm_compute. reflexivity.
Defined.

(** X3: a returned record carries the timing profile of the severity,
    and its success criteria are the templates of [INVARIANT_CRITERIA],
    one for one and in order, each with the key [window] set to the
    record's duration and every other key as in the template. *)
Theorem build_scenario_criteria_windowed (T : tables) (ft tgt sv : string)
  (r : scenario) :
  build_scenario T ft tgt sv = inr r ->
  exists tm,
    dict_find (TIMING T) sv = Some tm
    /\ s_duration (s_spec r) = duration tm
    /\ s_warmup (s_spec r) = warmup tm
    /\ s_cooldown (s_spec r) = cooldown tm
    /\ length (success_criteria (s_spec r)) = length (INVARIANT_CRITERIA T)
    /\ forall i c,
         nth_error (INVARIANT_CRITERIA T) i = Some c ->
         exists c',
           nth_error (success_criteria (s_spec r)) i = Some c'
           /\ dict_find c' "window" = Some (PyStr (s_duration (s_spec r)))
           /\ forall k, k <> "window" -> dict_find c' k = dict_find c k.
Proof.
  intros H.
  destruct (build_scenario_inv T ft tgt sv r H)
    as (fd & tr & tm & lv & slug & label & (_ & _ & Hs & _) & ->).
  exists tm. split; [exact Hs|]. simpl.
  split; [reflexivity|]. split; [reflexivity|]. split; [reflexivity|].
  split; [apply length_map|].
  intros i c Hc.
  exists (dict_set c "window" (PyStr (duration tm))).
  split; [rewrite nth_error_map, Hc; reflexivity|].
  split; [apply dict_find_set_same|].
  intros k Hk. apply dict_find_set_other. exact Hk.
Qed.

Lemma build_scenario_criteria_windowed_witness :
  exists r,
    build_scenario shipped "disk_io" "rpc_nodes" "severe" = inr r
    /\ exists tm,
         dict_find (TIMING shipped) "severe" = Some tm
         /\ s_duration (s_spec r) = duration tm
         /\ s_warmup (s_spec r) = warmup tm
         /\ s_cooldown (s_spec r) = cooldown tm
         /\ length (success_criteria (s_spec r))
            = length (INVARIANT_CRITERIA shipped)
         /\ forall i c,
              nth_error (INVARIANT_CRITERIA shipped) i = Some c ->
              exists c',
                nth_error (success_criteria (s_spec r)) i = Some c'
                /\ dict_find c' "window" = Some (PyStr (s_duration (s_spec r)))
                /\ forall k, k <> "window" -> dict_find c' k = dict_find c k.
Proof.
  eexists. split; [vm_compute; reflexivity|].
  apply (build_scenario_criteria_windowed shipped "disk_io" "rpc_nodes" "severe").
  vm_compute. reflexivity.
Defined.

(** X4: the name of a returned record is [gen-], the hyphenated fault
    type, the slug of the fault and severity, and the hyphenated target
    tier, joined by hyphens; it contains no underscore whenever the
    slug contains none.  The tags keep the target tier as it was
    passed, underscores included. *)
Theorem build_scenario_name_hyphenated (T : tables) (ft tgt sv : string)
  (r : scenario) :
  build_scenario T ft tgt sv = inr r ->
  exists slug,
    (slugs <- (SEVERITY_SLUGS T).[ft] ;; slugs.[sv]) = inr slug
    /\ name (s_metadata r)
       = "gen-" ++ hyphenate ft ++ "-" ++ slug ++ "-" ++ hyphenate tgt
    /\ tags (s_metadata r) = ["generated"; hyphenate ft; slug; tgt]
    /\ (no_underscore slug = true ->
        no_underscore (name (s_metadata r)) = true).
Proof.
  intros H.
  destruct (build_scenario_inv T ft tgt sv r H)
    as (fd & tr & tm & lv & slug & label & (_ & _ & _ & _ & Hslug & _) & ->).
  exists slug. split; [exact Hslug|]. simpl.
  split; [reflexivity|]. split; [reflexivity|].
  intros Hs. unfold scenario_name. simpl.
  rewrite no_underscore_app, no_underscore_hyphenate. simpl.
  rewrite no_underscore_app, Hs. simpl.
  apply no_underscore_hyphenate.
Qed.

Lemma build_scenario_name_hyphenated_witness :
  exists r,
    build_scenario shipped "bandwidth_throttle" "validator1_both" "mild" = inr r
    /\ exists slug,
         (slugs <- (SEVERITY_SLUGS shipped).["bandwidth_throttle"] ;;
          slugs.["mild"]) = inr slug
         /\ name (s_metadata r)
            = "gen-" ++ hyphenate "bandwidth_throttle" ++ "-" ++ slug
              ++ "-" ++ hyphenate "validator1_both"
         /\ tags (s_metadata r)
            = ["generated"; hyphenate "bandwidth_throttle"; slug;
               "validator1_both"]
         /\ (no_underscore slug = true ->
             no_underscore (name (s_metadata r)) = true).
Proof.
  eexists. split; [vm_compute; reflexivity|].
  apply (build_scenario_name_hyphenated
           shipped "bandwidth_throttle" "validator1_both" "mild").
  vm_compute. reflexivity.
Defined.

(** X5: for any tables, wherever [build_scenario] returns a record the
    preview listing computes a row for the same combination, and the
    row shows the record's name and duration, the fault's category, and
    the record's description up to the fault's context sentence.  The
    converse fails: the listing never reads the severity's parameter
    set, so it shows a row for a combination the builder rejects. *)
Theorem preview_row_matches_record :
  (forall (T : tables) (ft tgt sv : string) (r : scenario),
     build_scenario T ft tgt sv = inr r ->
     exists row fd,
       print_list_row T ft tgt sv = inr row
       /\ dict_find (FAULT_DEFINITIONS T) ft = Some fd
       /\ row_name row = name (s_metadata r)
       /\ row_dur row = s_duration (s_spec r)
       /\ row_category row = fd_category fd
       /\ description (s_metadata r)
          = row_desc row ++ ". " ++ fd_label fd ++ ".")
  /\ (exists row,
        print_list_row fault_without_severe "latency" "rabbitmq" "severe"
        = inr row
        /\ build_scenario fault_without_severe "latency" "rabbitmq" "severe"
           = inl (KeyError "severe")).
Proof.
  split.
  - intros T ft tgt sv r H.
    destruct (build_scenario_inv T ft tgt sv r H)
      as (fd & tr & tm & lv & slug & label & Hin & ->).
    eexists. exists fd.
    split; [apply (print_list_row_found T _ _ _ _ _ _ _ _ _ Hin)|].
    destruct Hin as (Hf & _). split; [exact Hf|]. simpl.
    split; [reflexivity|]. split; [reflexivity|]. split; [reflexivity|].
    rewrite !string_app_assoc. reflexivity.
  - eexists. split; vm_compute; reflexivity.
Qed.

(** ** The write loop *)

Section WriteLoop.

Variable T : tables.

Lemma write_loop_cons (c : list string) (rest : list (list string))
  (w : list written_file) :
  write_loop T (c :: rest) w
  = match write_one T c with
    | inl e => (w, Some e)
    | inr f => write_loop T rest (w ++ [f])
    end.
Proof. reflexivity. Qed.

(** The files already written are kept whatever happens next. *)
Lemma write_loop_acc (combos : list (list string)) (w : list written_file) :
  write_loop T combos w
  = ((w ++ fst (write_loop T combos []))%list, snd (write_loop T combos [])).
Proof.
  revert w. induction combos as [|c rest IH]; intros w.
  - simpl. rewrite app_nil_r. reflexivity.
  - rewrite !write_loop_cons. destruct (write_one T c) as [e|f].
    + simpl. rewrite app_nil_r. reflexivity.
    + rewrite (IH (w ++ [f])%list), (IH ([] ++ [f])%list). simpl.
      rewrite <- app_assoc. reflexivity.
Qed.


End WriteLoop.

(** ** Runs on the script's tables *)






(** ** The preview table *)

Lemma py_len_app (a b : string) : py_len (a ++ b) = py_len a + py_len b.
Proof.
  induction a as [|c a IH]; simpl; [reflexivity|]. rewrite IH. lia.
Qed.

Lemma py_len_repeat (s : string) (k : nat) :
  py_len (str_repeat s k) = k * py_len s.
Proof.
  induction k as [|k IH]; simpl; [reflexivity|].
  rewrite py_len_app, IH. reflexivity.
Qed.

(** Padding never truncates: the width is reached or exceeded. *)
Lemma py_len_ljust (s : string) (w : nat) :
  py_len (ljust s w) = Nat.max (py_len s) w.
Proof.
  unfold ljust. rewrite py_len_app, py_len_repeat.
  change (py_len " ") with 1. lia.
Qed.

Lemma fold_max_spec (l : list nat) (x : nat) :
  x <= fold_left Nat.max l x
  /\ (forall y, In y l -> y <= fold_left Nat.max l x)
  /\ In (fold_left Nat.max l x) (x :: l).
Proof.
  revert x. induction l as [|a l IH]; intros x; simpl.
  - split; [lia|]. split; [intros y []|left; reflexivity].
  - destruct (IH (Nat.max x a)) as (H1 & H2 & H3).
    split; [lia|]. split.
    + intros y [<-|Hy]; [lia|apply H2; exact Hy].
    + destruct H3 as [H3|H3]; [|right; right; exact H3].
      rewrite <- H3.
      destruct (Nat.max_spec x a) as [[_ E]|[_ E]]; rewrite E; auto.
Qed.

Lemma py_max_spec (l : list nat) (w : nat) :
  py_max l = inr w -> (forall y, In y l -> y <= w) /\ In w l.
Proof.
  destruct l as [|x l]; simpl; intros H; [discriminate|].
  inversion H. subst w. destruct (fold_max_spec l x) as (H1 & H2 & H3).
  split; [|exact H3]. intros y [<-|Hy]; [exact H1|apply H2; exact Hy].
Qed.

Lemma enumerate_nth (A : Type) (l : list A) (start i : nat) (x : A) :
  nth_error l i = Some x -> nth_error (enumerate l start) i = Some (start + i, x).
Proof.
  revert start i. induction l as [|a l IH]; intros start i H.
  - destruct i; discriminate.
  - destruct i as [|i]; simpl in *.
    + inversion H. rewrite Nat.add_0_r. reflexivity.
    + rewrite (IH (S start) i H). f_equal. f_equal. lia.
Qed.

Lemma enumerate_length (A : Type) (l : list A) (start : nat) :
  length (enumerate l start) = length l.
Proof.
  revert start. induction l as [|a l IH]; intros start; simpl;
    [reflexivity|]. rewrite IH. reflexivity.
Qed.

(** X8: the preview of an empty list of combinations raises
    [ValueError] (the column widths are maxima over the rows).  For any
    tables with an empty dimension, [--list] therefore prints the
    strategy, the count 0 and a blank line and then ends on that
    exception, with either strategy, while the generating run on the
    same tables ends normally with nothing written. *)
Theorem print_list_empty_raises (T : tables) :
  _print_list T [] = inl ValueError
  /\ (In [] (dimensions T) ->
      main_list T false None
      = Some (["Strategy   : full combinatorial"; "Combinations: 0"; ""],
              Some ValueError)
      /\ main_list T true None
         = Some (["Strategy   : pairwise"; "Combinations: 0"; ""],
                 Some ValueError)
      /\ main T false None = Some ([], None)
      /\ main T true None = Some ([], None)).
Proof.
  split; [reflexivity|]. intros H.
  assert (Hfull : full_combinations T = [])
    by exact (product_empty_pool _ H).
  assert (Hpair : pairwise_combinations T None = Some [])
    by exact (greedy_empty_dimension T H).
  unfold main_list, main. rewrite Hfull, Hpair. repeat split; reflexivity.
Qed.

Lemma bind_inr (A B : Type) (a : A) (k : A -> result B) :
  bind (inr a) k = k a.
Proof. reflexivity. Qed.

Lemma inr_injective (A : Type) (a b : A) : ret a = ret b -> a = b.
Proof. intros H. inversion H. reflexivity. Qed.

(** X9: when the preview prints, it prints a header, a rule of as many
    box-drawing characters as the header has characters, and one line
    per combination, numbered from 1 in the order of the combinations.
    In every line the name, description and category columns are
    exactly as wide, in characters, as the longest name, description
    and category of the listing; the header's columns are at least as
    wide as their titles. *)
Theorem print_list_layout (T : tables) (combos : list (list string))
  (lines : list string) :
  _print_list T combos = inr lines ->
  exists rows w_name w_desc w_cat header body,
    print_list_rows T combos = inr rows
    /\ combos <> []
    /\ lines = header :: str_repeat "─" (py_len header) :: body
    /\ length body = length combos
    /\ py_len (str_repeat "─" (py_len header)) = py_len header
    /\ py_len header
       = 5 + 2 + Nat.max 13 w_name + 2 + Nat.max 13 w_desc + 2
         + Nat.max 8 w_cat + 5
    /\ (exists r, In r rows /\ py_len (row_name r) = w_name)
    /\ (exists r, In r rows /\ py_len (row_desc r) = w_desc)
    /\ (exists r, In r rows /\ py_len (row_category r) = w_cat)
    /\ forall i row,
         nth_error rows i = Some row ->
         nth_error body i
         = Some (ljust (str_of_nat (S i)) 5 ++ "  "
                 ++ ljust (row_name row) w_name ++ "  "
                 ++ ljust (row_desc row) w_desc ++ "  "
                 ++ ljust (row_category row) w_cat ++ "  " ++ row_dur row)
         /\ py_len (ljust (row_name row) w_name) = w_name
         /\ py_len (ljust (row_desc row) w_desc) = w_desc
         /\ py_len (ljust (row_category row) w_cat) = w_cat.
Proof.
  intros H. unfold _print_list in H.
  destruct (print_list_rows T combos) as [e|rows] eqn:Hrows;
    [discriminate|].
  rewrite bind_inr in H. cbv beta in H.
  destruct (py_max (map (fun r => py_len (row_name r)) rows))
    as [e|wn] eqn:Hwn; [discriminate|].
  rewrite bind_inr in H. cbv beta in H.
  destruct (py_max (map (fun r => py_len (row_desc r)) rows))
    as [e|wd] eqn:Hwd; [discriminate|].
  rewrite bind_inr in H. cbv beta in H.
  destruct (py_max (map (fun r => py_len (row_category r)) rows))
    as [e|wc] eqn:Hwc; [discriminate|].
  rewrite bind_inr in H. cbv beta zeta in H.
  apply inr_injective in H. subst lines.
  destruct (py_max_spec _ _ Hwn) as [Hn_le Hn_in].
  destruct (py_max_spec _ _ Hwd) as [Hd_le Hd_in].
  destruct (py_max_spec _ _ Hwc) as [Hc_le Hc_in].
  eexists rows, wn, wd, wc, _, _.
  split; [reflexivity|].
  split.
  { intros ->. simpl in Hrows. inversion Hrows. subst rows. discriminate. }
  split; [reflexivity|].
  split.
  { rewrite length_map, enumerate_length.
    exact (mapM_length _ _ _ Hrows). }
  split.
  { rewrite py_len_repeat. change (py_len "─") with 1. lia. }
  split.
  { rewrite !py_len_app, !py_len_ljust.
    change (py_len "#") with 1. change (py_len "  ") with 2.
    change (py_len "scenario name") with 13.
    change (py_len "what it tests") with 13.
    change (py_len "category") with 8.
    change (py_len "  dur") with 5. lia. }
  split.
  { apply in_map_iff in Hn_in. destruct Hn_in as (r & E & Hr). eauto. }
  split.
  { apply in_map_iff in Hd_in. destruct Hd_in as (r & E & Hr). eauto. }
  split.
  { apply in_map_iff in Hc_in. destruct Hc_in as (r & E & Hr). eauto. }
  intros i row Hi.
  pose proof (nth_error_In _ _ Hi) as Hin.
  split.
  { rewrite nth_error_map, (enumerate_nth _ _ 1 i row Hi). reflexivity. }
  rewrite !py_len_ljust.
  pose proof (Hn_le _ (in_map (fun r => py_len (row_name r)) _ _ Hin)).
  pose proof (Hd_le _ (in_map (fun r => py_len (row_desc r)) _ _ Hin)).
  pose proof (Hc_le _ (in_map (fun r => py_len (row_category r)) _ _ Hin)).
  simpl in *. lia.
Qed.

Lemma print_list_layout_witness :
  exists lines rows header body,
    _print_list shipped [["latency"; "all_bor"; "mild"];
                         ["cpu_stress"; "validator1_heimdall"; "severe"]]
    = inr lines
    /\ print_list_rows shipped
         [["latency"; "all_bor"; "mild"];
          ["cpu_stress"; "validator1_heimdall"; "severe"]] = inr rows
    /\ lines = header :: str_repeat "─" (py_len header) :: body
    /\ length body = 2.
Proof.
  pose (combos := [["latency"; "all_bor"; "mild"];
                   ["cpu_stress"; "validator1_heimdall"; "severe"]]).
  pose (lines := match _print_list shipped combos with
                 | inr l => l
                 | inl _ => []
                 end).
  assert (H : _print_list shipped combos = inr lines)
    by (vm_compute; reflexivity).
  destruct (print_list_layout shipped combos lines H)
    as (rows & wn & wd & wc & header & body & Hrows & _ & E & Hlen & _).
  exists lines, rows, header, body. auto.
Defined.

(** ** More on the two strategies *)

(** X10: for any tables, [full_combinations] has as many tuples as the
    product of the three dimension sizes, its tuples are exactly the
    triples of one declared fault type, target tier and severity, the
    tuple of the values at positions [i], [j], [k] of the dimensions
    sits at position [i * (tiers * severities) + j * severities + k],
    no tuple is repeated when no dimension repeats a value, and when no
    dimension is empty every declared value occurs in some tuple. *)
Theorem full_combinations_any_tables (T : tables) :
  let fts := keys (FAULT_DEFINITIONS T) in
  let tts := keys (TARGET_TIERS T) in
  let svs := SEVERITIES T in
  length (full_combinations T) = length fts * length tts * length svs
  /\ (forall c, In c (full_combinations T) <->
        exists ft tgt sv,
          c = [ft; tgt; sv] /\ In ft fts /\ In tgt tts /\ In sv svs)
  /\ (forall i j k ft tgt sv,
        nth_error fts i = Some ft -> nth_error tts j = Some tgt ->
        nth_error svs k = Some sv ->
        nth_error (full_combinations T)
                  (i * (length tts * length svs) + (j * length svs + k))
        = Some [ft; tgt; sv])
  /\ (NoDup fts -> NoDup tts -> NoDup svs -> NoDup (full_combinations T))
  /\ (fts <> [] -> tts <> [] -> svs <> [] ->
      forall d v, d < 3 -> In v (nth d (dimensions T) []) ->
        exists c, In c (full_combinations T) /\ nth_error c d = Some v).
Proof.
  intros fts tts svs.
  split; [exact (full_combinations_count T)|].
  split; [exact (full_combinations_in T)|].
  split; [exact (full_combinations_nth T)|].
  split.
  - intros Hf Ht Hs. unfold full_combinations. apply NoDup_product.
    repeat apply Forall_cons; auto.
  - intros Hf Ht Hs d v Hd Hv.
    destruct fts as [|f0 fts'] eqn:Ef; [congruence|].
    destruct tts as [|t0 tts'] eqn:Et; [congruence|].
    destruct svs as [|s0 svs'] eqn:Es; [congruence|].
    assert (Hf0 : In f0 (keys (FAULT_DEFINITIONS T)))
      by (fold fts; rewrite Ef; left; reflexivity).
    assert (Ht0 : In t0 (keys (TARGET_TIERS T)))
      by (fold tts; rewrite Et; left; reflexivity).
    assert (Hs0 : In s0 (SEVERITIES T))
      by (fold svs; rewrite Es; left; reflexivity).
    destruct d as [|[|[|d]]]; [| | |lia]; simpl in Hv.
    + exists [v; t0; s0]. split; [|reflexivity].
      apply full_combinations_in. exists v, t0, s0. auto.
    + exists [f0; v; s0]. split; [|reflexivity].
      apply full_combinations_in. exists f0, v, s0. auto.
    + exists [f0; t0; v]. split; [|reflexivity].
      apply full_combinations_in. exists f0, t0, v. auto.
Qed.

(** X11: for any tables without an empty dimension, the built-in
    greedy algorithm returns a list with complete 2-way coverage: any
    value of one dimension and any value of another occur together, at
    their positions, in some returned combination. *)
Theorem pairwise_covers_any_tables (T : tables) :
  Forall (fun d => d <> []) (dimensions T) ->
  exists selected,
    pairwise_combinations T None = Some selected
    /\ forall i j v w,
         i < 3 -> j < 3 -> i <> j ->
         In v (nth i (dimensions T) []) ->
         In w (nth j (dimensions T) []) ->
         exists c, In c selected
                   /\ nth_error c i = Some v /\ nth_error c j = Some w.
Proof.
  intros Hne.
  destruct (greedy_total (dimensions T)) as [selected Hsel].
  exists selected. split; [exact Hsel|].
  destruct (greedy_sound _ _ Hsel) as [Hsub _].
  assert (Hlt : forall i j v w,
             i < j < 3 ->
             In v (nth i (dimensions T) []) ->
             In w (nth j (dimensions T) []) ->
             exists c, In c selected
                       /\ nth_error c i = Some v /\ nth_error c j = Some w).
  { intros i j v w Hij Hv Hw.
    destruct (greedy_covers _ _ Hne Hsel i j v w Hij Hv Hw)
      as (c & Hc & Hci & Hcj).
    exists c. split; [exact Hc|].
    rewrite <- Hci, <- Hcj.
    split; apply (item_nth_error (dimensions T)); auto;
      rewrite dimensions_length; lia. }
  intros i j v w Hi Hj Hneq Hv Hw.
  destruct (Nat.lt_trichotomy i j) as [Hij|[Hij|Hij]]; [|contradiction|].
  - apply Hlt; auto.
  - destruct (Hlt j i w v (conj Hij Hi) Hw Hv) as (c & Hc & Hcj & Hci).
    exists c. auto.
Qed.

Lemma pairwise_covers_any_tables_witness :
  exists selected,
    pairwise_combinations tier_without_selectors None = Some selected
    /\ forall i j v w,
         i < 3 -> j < 3 -> i <> j ->
         In v (nth i (dimensions tier_without_selectors) []) ->
         In w (nth j (dimensions tier_without_selectors) []) ->
         exists c, In c selected
                   /\ nth_error c i = Some v /\ nth_error c j = Some w.
Proof.
  apply (pairwise_covers_any_tables tier_without_selectors).
  repeat apply Forall_cons; try apply Forall_nil; discriminate.
Defined.

Section Progress.

Import Pairwise.

Variable dims : list (list string).

(** The loop never selects a tuple that adds nothing: every selected
    tuple meets, on some pair of dimensions, a requirement that none of
    the tuples selected before it meets; and the loop selects at most
    one tuple per requirement. *)
Lemma loop_progress (fuel : nat) :
  forall covered selected res,
    loop_inv dims covered selected ->
    length selected + length (uncovered dims covered)
    <= length (required dims) ->
    (forall pre c post,
       selected = (pre ++ c :: post)%list ->
       exists ij, In ij (index_pairs (n dims))
                  /\ forall c', In c' pre -> projection c' ij <> projection c ij) ->
    greedy_loop dims fuel covered selected = Some res ->
    length res <= length (required dims)
    /\ (forall pre c post,
          res = (pre ++ c :: post)%list ->
          exists ij, In ij (index_pairs (n dims))
                     /\ forall c', In c' pre ->
                          projection c' ij <> projection c ij).
Proof.
  induction fuel as [|fuel IH]; intros covered selected res Hinv Hlen Hprog Hres;
    simpl in Hres; [discriminate|].
  assert (Hstop : Some selected = Some res ->
            length res <= length (required dims)
            /\ (forall pre c post,
                  res = (pre ++ c :: post)%list ->
                  exists ij, In ij (index_pairs (n dims))
                             /\ forall c', In c' pre ->
                                  projection c' ij <> projection c ij)).
  { intros E. inversion E. subst res. split; [lia|exact Hprog]. }
  destruct (ReqSet.proper_subset covered (required dims)); [|auto].
  destruct (scan_spec dims covered (all_combos dims))
    as [[_ Hscan]|(k & c & Hscan & Hk & _)]; rewrite Hscan in Hres; [auto|].
  destruct (Z.eqb_spec (new_count dims covered c) 0) as [_|Hnz]; [auto|].
  pose proof (nth_error_In _ _ Hk) as Hc.
  apply (IH _ _ _ (loop_inv_step _ _ _ _ Hinv Hc Hnz)); [| |exact Hres].
  - pose proof (uncovered_mark_lt dims covered c Hc Hnz).
    rewrite length_app. simpl. lia.
  - intros pre c0 post E.
    destruct post as [|x post _] using rev_ind.
    + apply app_inj_tail in E. destruct E as [-> ->].
      destruct (new_count_fresh dims covered c0 Hnz) as (ij & Hij & Hm).
      exists ij. split; [exact Hij|]. intros c' Hc' Heq.
      destruct Hinv as (_ & _ & Hcov).
      assert (Hm' : ReqSet.mem (projection c0 ij) covered = true).
      { apply Hcov. exists c', ij. auto. }
      congruence.
    + rewrite app_comm_cons, app_assoc in E.
      apply app_inj_tail in E. destruct E as [E _].
      exact (Hprog pre c0 post E).
Qed.

End Progress.

(** X12: for any tables, every combination the greedy algorithm
    returns is useful: on some pair of dimensions it carries a pair of
    values that no combination returned before it carries on that pair.
    Hence the list has at most one combination per requirement. *)
Theorem pairwise_picks_are_useful (T : tables) :
  exists selected,
    pairwise_combinations T None = Some selected
    /\ length selected <= length (Pairwise.required (dimensions T))
    /\ forall pre c post,
         selected = (pre ++ c :: post)%list ->
         exists i j,
           i < j < 3
           /\ forall c', In c' pre ->
                ~ (Pairwise.item c' i = Pairwise.item c i
                   /\ Pairwise.item c' j = Pairwise.item c j).
Proof.
  destruct (greedy_total (dimensions T)) as [selected Hsel].
  exists selected. split; [exact Hsel|].
  destruct (loop_progress (dimensions T) _ _ _ _
              (loop_inv_init (dimensions T))
              ltac:(simpl; apply filter_length_le)
              ltac:(intros pre c post E; destruct pre; discriminate)
              Hsel) as [Hlen Hprog].
  split; [exact Hlen|].
  intros pre c post E.
  destruct (Hprog pre c post E) as ([i j] & Hij & Hfresh).
  apply index_pairs_spec in Hij. exists i, j. split; [exact Hij|].
  intros c' Hc' [Ei Ej]. apply (Hfresh c' Hc').
  unfold Pairwise.projection. simpl. rewrite Ei, Ej. reflexivity.
Qed.

(** ** When the preview prints *)








(** ** The returned selection, element by element *)

Section SelectionRule.

Import Pairwise.

Variable dims : list (list string).

Lemma marks_snoc (l : list (list string)) (c : list string) :
  marks dims (l ++ [c]) = mark dims (marks dims l) c.
Proof. unfold marks. rewrite fold_left_app. reflexivity. Qed.

Lemma firstn_succ (A : Type) (l : list A) (r : nat) :
  firstn (S r) l
  = (firstn r l ++ match nth_error l r with Some x => [x] | None => [] end)%list.
Proof.
  revert r. induction l as [|a l IH]; intros r.
  - destruct r; reflexivity.
  - destruct r as [|r]; [reflexivity|].
    change (firstn (S (S r)) (a :: l)) with (a :: firstn (S r) l).
    rewrite IH. reflexivity.
Qed.

(** The loop keeps [covered] equal to the marks of the selected tuples
    and every selected tuple chosen by the rule; what it returns
    follows the rule to the end. *)
Lemma loop_follows_rule (fuel : nat) :
  forall selected res,
    (forall r c,
       nth_error selected r = Some c ->
       ReqSet.proper_subset (marks dims (firstn r selected)) (required dims)
       = true
       /\ (0 < new_count dims (marks dims (firstn r selected)) c)%Z
       /\ exists k, first_max dims (marks dims (firstn r selected))
                              (all_combos dims) k c) ->
    greedy_loop dims fuel (marks dims selected) selected = Some res ->
    follows_rule dims (all_combos dims) res.
Proof.
  induction fuel as [|fuel IH]; intros selected res Htrace Hres;
    simpl in Hres; [discriminate|].
  destruct (ReqSet.proper_subset (marks dims selected) (required dims))
    eqn:Hlt.
  - destruct (scan_spec dims (marks dims selected) (all_combos dims))
      as [[Hnil Hscan]|(k & c & Hscan & Hfm)]; rewrite Hscan in Hres.
    + inversion Hres. subst res. split; [exact Htrace|]. right. left.
      exact Hnil.
    + destruct (Z.eqb_spec (new_count dims (marks dims selected) c) 0)
        as [Hz|Hnz].
      * inversion Hres. subst res. split; [exact Htrace|]. right. right.
        intros c' Hc'. destruct Hfm as (_ & Hmax & _).
        pose proof (Hmax c' Hc').
        pose proof (new_count_nonneg dims (marks dims selected) c'). lia.
      * rewrite <- marks_snoc in Hres.
        apply (IH (selected ++ [c])%list res); [|exact Hres].
        intros r c0 Hr.
        destruct (Nat.lt_ge_cases r (length selected)) as [Hlt'|Hge].
        -- rewrite nth_error_app1 in Hr by exact Hlt'.
           rewrite firstn_app.
           replace (r - length selected) with 0 by lia.
           rewrite firstn_O, app_nil_r. apply Htrace. exact Hr.
        -- assert (Er : r = length selected).
           { assert (r < length (selected ++ [c])%list)
               by (apply nth_error_Some; rewrite Hr; discriminate).
             rewrite length_app in H. simpl in H. lia. }
           subst r. rewrite nth_error_app2, Nat.sub_diag in Hr by lia.
           inversion Hr. subst c0.
           rewrite firstn_app, firstn_all, Nat.sub_diag, firstn_O, app_nil_r.
           split; [exact Hlt|]. split.
           ++ pose proof (new_count_nonneg dims (marks dims selected) c). lia.
           ++ exists k. exact Hfm.
  - inversion Hres. subst res. split; [exact Htrace|]. left. exact Hlt.
Qed.

(** Two lists that follow the rule agree on every prefix. *)
Lemma rule_prefixes_agree (combos l1 l2 : list (list string)) :
  follows_rule dims combos l1 -> follows_rule dims combos l2 ->
  forall r, firstn r l1 = firstn r l2.
Proof.
  intros [Ht1 He1] [Ht2 He2].
  assert (Hstop : forall la lb r c,
             (forall r c,
                nth_error la r = Some c ->
                ReqSet.proper_subset (marks dims (firstn r la)) (required dims)
                = true
                /\ (0 < new_count dims (marks dims (firstn r la)) c)%Z
                /\ exists k, first_max dims (marks dims (firstn r la))
                                       combos k c) ->
             (ReqSet.proper_subset (marks dims lb) (required dims) = false
              \/ combos = []
              \/ forall c, In c combos -> new_count dims (marks dims lb) c = 0%Z) ->
             firstn r la = firstn r lb ->
             nth_error la r = Some c -> nth_error lb r = None -> False).
  { intros la lb r c Hta Heb Hpre Hc Hnone.
    apply nth_error_None in Hnone.
    rewrite (firstn_all2 _ Hnone) in Hpre.
    destruct (Hta r c Hc) as (Hlt & Hpos & k & Hk & _).
    rewrite Hpre in Hlt, Hpos.
    destruct Heb as [Hb|[Hb|Hb]].
    - congruence.
    - subst combos. destruct k; discriminate.
    - rewrite (Hb c (nth_error_In _ _ Hk)) in Hpos. lia. }
  induction r as [|r IH]; [reflexivity|].
  rewrite !firstn_succ, IH.
  destruct (nth_error l1 r) as [c1|] eqn:E1;
    destruct (nth_error l2 r) as [c2|] eqn:E2.
  - destruct (Ht1 r c1 E1) as (_ & _ & k1 & Hk1).
    destruct (Ht2 r c2 E2) as (_ & _ & k2 & Hk2).
    rewrite IH in Hk1.
    destruct (first_max_unique dims _ _ _ _ _ _ Hk1 Hk2) as [_ ->].
    reflexivity.
  - exfalso. exact (Hstop l1 l2 r c1 Ht1 He2 IH E1 E2).
  - exfalso. exact (Hstop l2 l1 r c2 Ht2 He1 (eq_sym IH) E2 E1).
  - reflexivity.
Qed.

Lemma rule_unique (combos l1 l2 : list (list string)) :
  follows_rule dims combos l1 -> follows_rule dims combos l2 -> l1 = l2.
Proof.
  intros H1 H2.
  pose proof (rule_prefixes_agree combos l1 l2 H1 H2
                (Nat.max (length l1) (length l2))) as H.
  rewrite !firstn_all2 in H by lia. exact H.
Qed.

End SelectionRule.

(** C3: the list the greedy algorithm returns follows the selection
    rule element by element.  Its [r]-th element was appended in a
    round: the loop condition held for the requirements covered by the
    elements before it, and among all combinations of the full
    enumeration it is the first, in enumeration order, that adds the
    largest number of requirements not covered by those elements; the
    rule names no other combination, and the element adds at least one
    requirement.  After the last element the loop condition fails or no
    combination adds a requirement.  The rule leaves no choice: any
    list built by it is the returned list, so a run on unchanged tables
    can only return the same list in the same order. *)
Theorem greedy_selection_first_max (T : tables) :
  exists selected,
    pairwise_combinations T None = Some selected
    /\ (forall r c,
         nth_error selected r = Some c ->
         let covered := Pairwise.marks (dimensions T) (firstn r selected) in
         ReqSet.proper_subset covered (Pairwise.required (dimensions T)) = true
         /\ (0 < Pairwise.new_count (dimensions T) covered c)%Z
         /\ exists k,
              Pairwise.first_max (dimensions T) covered
                                 (full_combinations T) k c
              /\ forall k' c',
                   Pairwise.first_max (dimensions T) covered
                                      (full_combinations T) k' c' ->
                   k' = k /\ c' = c)
    /\ (let covered := Pairwise.marks (dimensions T) selected in
        ReqSet.proper_subset covered (Pairwise.required (dimensions T)) = false
        \/ full_combinations T = []
        \/ forall c, In c (full_combinations T) ->
                     Pairwise.new_count (dimensions T) covered c = 0%Z)
    /\ (forall other,
          Pairwise.follows_rule (dimensions T) (full_combinations T) other ->
          other = selected).
Proof.
  destruct (greedy_total (dimensions T)) as [selected Hsel].
  exists selected. split; [exact Hsel|].
  assert (Hrule : Pairwise.follows_rule (dimensions T) (full_combinations T)
                                        selected).
  { apply (loop_follows_rule (dimensions T)
             (S (length (Pairwise.required (dimensions T)))) []).
    - intros r c Hr. destruct r; discriminate.
    - exact Hsel. }
  split; [|split].
  - intros r c Hr covered. destruct Hrule as [Htrace _].
    destruct (Htrace r c Hr) as (Hlt & Hpos & k & Hfm).
    split; [exact Hlt|]. split; [exact Hpos|].
    exists k. split; [exact Hfm|].
    intros k' c' Hfm'.
    exact (first_max_unique (dimensions T) _ _ _ _ _ _ Hfm' Hfm).
  - destruct Hrule as [_ Hexit]. exact Hexit.
  - intros other Hother.
    exact (rule_unique (dimensions T) _ other selected Hother Hrule).
Qed.

(** ** The run against the file system *)

Example str_replace_cases :
  str_replace "${ENCLAVE_NAME}" "pos" "enclave: ${ENCLAVE_NAME}" = "enclave: pos"
  /\ str_replace "${ENCLAVE_NAME}" "e" "${ENCLAVE_NAME}${ENCLAVE_NAME}x" = "eex"
  /\ str_replace "aa" "b" "aaa" = "ba"
  /\ str_replace "ab" "abab" "xaby" = "xababy"
  /\ str_replace "${ENCLAVE_NAME}" "e" "no placeholder $ {" = "no placeholder $ {".
Proof. vm_compute. repeat split; reflexivity. Qed.

Section RunFacts.

Variable T : tables.
Variable to_yaml : scenario -> string.
Variable path_join : string -> string -> string.
Variable world : Type.
Variable os_error : Type.
Variable makedirs : world -> string -> world * option os_error.
Variable open_write : world -> string -> string -> world * option os_error.
Variable output : string.
Variable enclave : option string.

Local Set Warnings "-notation-for-abbreviation".

Local Notation step :=
  (write_step T to_yaml path_join world os_error makedirs open_write
              output enclave).
Local Notation loop :=
  (run_loop T to_yaml path_join world os_error makedirs open_write
            output enclave).
Local Notation done :=
  (steps_done T to_yaml path_join world os_error makedirs open_write
              output enclave).

Lemma run_loop_cons (combo : list string) (rest : list (list string))
  (w : world) (printed : list string) (written : nat) :
  loop (combo :: rest) w printed written
  = match step w combo with
    | (w', inl f) => (w', printed, written, Some f)
    | (w', inr line) => loop rest w' (printed ++ [line])%list (S written)
    end.
Proof. reflexivity. Qed.

(** The loop is the succession of its steps up to the first failure. *)
Lemma run_loop_spec (combos : list (list string)) :
  forall w printed written,
    match loop combos w printed written with
    | (w', printed', written', None) =>
        exists lines,
          done combos w w' lines
          /\ printed' = (printed ++ lines)%list
          /\ written' = written + length combos
    | (w', printed', written', Some f) =>
        exists pre bad post w1 lines,
          combos = (pre ++ bad :: post)%list
          /\ done pre w w1 lines
          /\ step w1 bad = (w', inl f)
          /\ printed' = (printed ++ lines)%list
          /\ written' = written + length pre
    end.
Proof.
  induction combos as [|combo rest IH]; intros w printed written.
  - simpl. exists []. split; [constructor|].
    split; [rewrite app_nil_r; reflexivity|lia].
  - rewrite run_loop_cons.
    destruct (step w combo) as [w1 [f|line]] eqn:Hstep.
    + exists [], combo, rest, w, []. split; [reflexivity|].
      split; [constructor|]. split; [exact Hstep|].
      split; [rewrite app_nil_r; reflexivity|simpl; lia].
    + specialize (IH w1 (printed ++ [line])%list (S written)).
      destruct (loop rest w1 (printed ++ [line])%list (S written))
        as [[[w' printed'] written'] [f|]].
      * destruct IH as (pre & bad & post & w2 & lines & -> & Hd & Hs & -> & ->).
        exists (combo :: pre), bad, post, w2, (line :: lines).
        split; [reflexivity|].
        split; [econstructor; [exact Hstep|exact Hd]|].
        split; [exact Hs|].
        split; [rewrite <- app_assoc; reflexivity|simpl; lia].
      * destruct IH as (lines & Hd & -> & ->).
        exists (line :: lines).
        split; [econstructor; [exact Hstep|exact Hd]|].
        split; [rewrite <- app_assoc; reflexivity|simpl; lia].
Qed.


(** On a file system that accepts every operation a step fails exactly
    when [write_one] does, with the same exception. *)
Lemma write_step_accepting (w : world) (combo : list string) :
  (forall w d, snd (makedirs w d) = None) ->
  (forall w p c, snd (open_write w p c) = None) ->
  match write_one T combo with
  | inl e => step w combo = (w, inl (Raised e))
  | inr f => exists w' line, step w combo = (w', inr line)
  end.
Proof.
  intros Hm Ho. unfold write_one, write_step.
  destruct (unpack3 combo) as [e|[[ft tgt] sv]]; simpl; [reflexivity|].
  destruct (build_scenario T ft tgt sv) as [e|r]; simpl; [reflexivity|].
  destruct ((FAULT_DEFINITIONS T).[ft]) as [e|fd]; simpl; [reflexivity|].
  pose proof (Hm w (path_join output (fd_category fd))) as Hm'.
  destruct (makedirs w (path_join output (fd_category fd))) as [w1 [err|]];
    [discriminate|].
  match goal with
  | |- context [open_write ?a ?b ?c] =>
      pose proof (Ho a b c) as Ho'; destruct (open_write a b c) as [w2 [err|]]
  end; [discriminate|].
  eexists. eexists. reflexivity.
Qed.

(** [write_loop] is the loop on a file system that accepts every
    operation: the same exception ends both, after as many completed
    steps. *)
Lemma run_loop_accepting (combos : list (list string)) :
  (forall w d, snd (makedirs w d) = None) ->
  (forall w p c, snd (open_write w p c) = None) ->
  forall w printed written,
    snd (loop combos w printed written)
    = option_map Raised (snd (write_loop T combos []))
    /\ snd (fst (loop combos w printed written))
       = written + length (fst (write_loop T combos [])).
Proof.
  intros Hm Ho. induction combos as [|combo rest IH]; intros w printed written.
  - simpl. split; [reflexivity|lia].
  - rewrite run_loop_cons, write_loop_cons.
    pose proof (write_step_accepting w combo Hm Ho) as Hstep.
    destruct (write_one T combo) as [e|f].
    + rewrite Hstep. simpl. split; [reflexivity|lia].
    + destruct Hstep as (w1 & line & ->).
      rewrite write_loop_acc. simpl.
      destruct (IH w1 (printed ++ [line])%list (S written)) as [-> ->].
      split; [reflexivity|]. simpl. lia.
Qed.

Lemma steps_done_length (combos : list (list string)) (w w' : world)
  (lines : list string) :
  done combos w w' lines -> length lines = length combos.
Proof.
  induction 1 as [|combo rest w0 w1 w2 line lines _ _ IH]; simpl;
    [reflexivity|]. rewrite IH. reflexivity.
Qed.

(** X6: for any tables, any file system and any list of combinations,
    the write loop takes the combinations in order, each step starting
    from the file system the step before left.  When every step
    completes, the counter and the number of lines printed equal the
    number of combinations.  Otherwise the loop ends at the first step
    that fails, whether [build_scenario] raises or the file system
    refuses to create the directory or to write the file: the steps
    before it have completed and are not undone, the counter and the
    lines printed count those steps only, and no later combination is
    touched. *)
Theorem run_loop_stops_at_first_failure (combos : list (list string))
  (w : world) :
  match run_loop T to_yaml path_join world os_error makedirs open_write
                 output enclave combos w [] 0
  with
  | (w', printed, written, None) =>
      steps_done T to_yaml path_join world os_error makedirs open_write
                 output enclave combos w w' printed
      /\ written = length combos
      /\ length printed = length combos
  | (w', printed, written, Some f) =>
      exists pre bad post w1,
        combos = (pre ++ bad :: post)%list
        /\ steps_done T to_yaml path_join world os_error makedirs open_write
                      output enclave pre w w1 printed
        /\ write_step T to_yaml path_join world os_error makedirs open_write
                      output enclave w1 bad
           = (w', inl f)
        /\ written = length pre
        /\ length printed = length pre
  end.
Proof.
  pose proof (run_loop_spec combos w [] 0) as H.
  destruct (loop combos w [] 0) as [[[w' printed] written] [f|]].
  - destruct H as (pre & bad & post & w1 & lines & Hc & Hd & Hs & -> & ->).
    exists pre, bad, post, w1. simpl.
    split; [exact Hc|]. split; [exact Hd|]. split; [exact Hs|].
    split; [reflexivity|]. exact (steps_done_length _ _ _ _ Hd).
  - destruct H as (lines & Hd & -> & ->). simpl.
    split; [exact Hd|]. split; [reflexivity|].
    exact (steps_done_length _ _ _ _ Hd).
Qed.


End RunFacts.


(** A run on a small file system: the files in place after the failure
    are those of the 26 combinations before the failing one. *)
Example run_on_incomplete_tables :
  match main_run fault_without_severe (fun _ => "run")
                 (fun a b => a ++ "/" ++ b) (list string) unit
                 (fun w _ => (w, None)) (fun w p _ => (p :: w, None))
                 "out" None false None []
  with
  | Some (w', printed, Some (Raised (KeyError k))) =>
      (k, length w', length printed, hd "" w', last printed "")
  | _ => ("", 0, 0, "", "")
  end
  = ("severe", 26, 29,
     "out/network/gen-latency-500ms-validator1-heimdall.yaml",
     "  wrote  out/network/gen-latency-500ms-validator1-heimdall.yaml").
Proof. vm_compute. reflexivity. Qed.

(** The file system refuses a path: the run ends on that [OSError]
    with nothing written, although every record can be assembled. *)
Example run_on_refusing_file_system :
  match main_run shipped (fun _ => "run") (fun a b => a ++ "/" ++ b)
                 (list string) string
                 (fun w _ => (w, None))
                 (fun w p _ => (w, Some "FileNotFoundError"))
                 "out" None false None []
  with
  | Some (w', printed, Some (OSError err)) => (err, length w', length printed)
  | _ => ("", 0, 0)
  end
  = ("FileNotFoundError", 0, 3).
Proof. vm_compute. reflexivity. Qed.
